(** * arduino-timer: a shallow embedding of [Timers::TimerSet]

    The repository ships two headers with the same interface:
    - [src/arduino-timer-cpp17.hpp] (called [Cpp17] below), and
    - [src/arduino-timer.h] (called [Legacy] below).
    The scheduling calls, [add_timer], [remove] and the two loops of
    [tick] are the same code in both; the headers differ in what [tick]
    does when a handler reports [repeat], which the embedding takes from
    the parameter [impl].  [reschedule_timer], [reschedule_in] and
    [reschedule_at] exist in the cpp17 header only, and [cancel] is
    embedded as the cpp17 header has it. *)

From Stdlib Require Import ZArith Lia.
From stdpp Require Import base list fin vector finite.

Local Open Scope Z_scope.

(** Which of the two headers is being modelled. *)
Inductive Impl := Cpp17 | Legacy.

(** [enum class TimerStatus] (the legacy header spells the first member
  [complete]). *)
Module TimerStatus.
Inductive t := completed | repeat | reschedule.
End TimerStatus.

(** [using Timepoint = unsigned long]: a [bits]-wide unsigned integer,
  kept as a [Z] with the wrap-around written out where the code does
  arithmetic. *)
Definition Timepoint := Z.

(** [struct HandlerResult { TimerStatus status; Timepoint next; }]
  (a [std::tuple<TimerStatus, Timepoint>] in the legacy header). *)
Record HandlerResult := mkResult {
  status : TimerStatus.t;
  next : Timepoint
}.

Section TimerSet.

(** Width of [unsigned long] on the target. *)
Variable bits : positive.

(** [max_timers]: the template parameter fixing the pool capacity. *)
Context {max_timers : nat}.

(** [Callable]: the targets a [std::function<HandlerResult (void)>] can
    hold.  [W]: everything outside the pool that the clock and the
    handlers can read or change. *)
Context {Callable W : Type}.

Definition modulus : Z := 2 ^ Z.pos bits.

(** [std::numeric_limits<Timepoint>::max()] *)
Definition Timepoint_max : Z := modulus - 1.

(** Conversion to [unsigned long]. *)
Definition wrap (z : Z) : Timepoint := z mod modulus.

(** Unsigned subtraction [a - b]. *)
Definition sub (a b : Timepoint) : Timepoint := wrap (a - b).

(** [using Handler = std::function<HandlerResult (void)>]; [None] is the
    empty function object, for which [!handler] is true. *)
Definition Handler := option Callable.

(** [struct Timer] *)
Record Timer := mkTimer {
  handler : Handler;
  start : Timepoint;
  expires : Timepoint;
  repeat : Timepoint
}.

(** [std::array<Timer, max_timers> timers] *)
Definition Pool := vec Timer max_timers.

(** [using TimerHandle = std::optional<std::reference_wrapper<Timer>>]:
    a reference to a slot of the pool is the slot's index. *)
Definition TimerHandle := option (fin max_timers).

(** The state a call runs in: the pool, the outside world, and a log of
    the handler invocations made by [tick] (slot and callable), which is
    observation only: neither the clock nor a handler can see it. *)
Record State := mkState {
  timers : Pool;
  world : W;
  fired : list (fin max_timers * Callable)
}.

(** [clock::now()] / [time_func()]: an external collaborator. *)
Variable clock_now : W -> Z * W.

(** Running a callable: it returns its [HandlerResult] and may have
    changed the world and, through the public interface, the pool. *)
Variable invoke : Callable -> Pool * W -> HandlerResult * (Pool * W).

Variable impl : Impl.

Definition now (w : W) : Timepoint * W :=
  let '(t, w') := clock_now w in (wrap t, w').

(** [!t.handler] *)
Definition is_free (t : Timer) : bool :=
  match handler t with None => true | Some _ => false end.

Definition is_armed (t : Timer) : bool := negb (is_free t).

(** The value [remove] leaves in a slot. *)
Definition cleared : Timer :=
  {| handler := None; start := 0; expires := 0; repeat := 0 |}.

(** [void remove(TimerHandle handle)] *)
Definition remove (handle : TimerHandle) (ts : Pool) : Pool :=
  match handle with
  | None => ts
  | Some i => vinsert i cleared ts
  end.

(** [next_timer_slot()]: [std::find_if] for the first slot with no
    handler; [None] stands for [timers.end()]. *)
Fixpoint find_free {n} (ts : vec Timer n) : option (fin n) :=
  match ts with
  | vnil => None
  | vcons t ts' =>
      if is_free t then Some 0%fin else FS <$> find_free ts'
  end.

Definition next_timer_slot (ts : Pool) : option (fin max_timers) :=
  find_free ts.

(** [TimerHandle add_timer(start, expires, h, repeat = 0)] *)
Definition add_timer (start_ expires_ : Timepoint) (h : Handler)
    (repeat_ : Timepoint) (ts : Pool) : TimerHandle * Pool :=
  match next_timer_slot ts with
  | Some it =>
      (Some it,
       vinsert it {| handler := h; start := start_;
                     expires := expires_; repeat := repeat_ |} ts)
  | None => (None, ts)
  end.

(** [TimerHandle reschedule_timer(handle, start, expires)]
    (cpp17 header only). *)
Definition reschedule_timer (handle : TimerHandle)
    (start_ expires_ : Timepoint) (ts : Pool) : TimerHandle * Pool :=
  match handle with
  | None => (handle, ts)
  | Some i =>
      let timer := ts !!! i in
      if is_free timer then (handle, ts)
      else (handle,
            vinsert i {| handler := handler timer; start := start_;
                         expires := expires_; repeat := repeat timer |} ts)
  end.

(** Lifting of a pool operation that runs after one clock reading. *)
Definition with_pool {A} (st : State) (w' : W) (r : A * Pool) : A * State :=
  (r.1, {| timers := r.2; world := w'; fired := fired st |}).

(** [TimerHandle in(Timepoint delay, Handler h)] *)
Definition in_ (delay : Timepoint) (h : Handler) (st : State)
    : TimerHandle * State :=
  let '(t, w') := now (world st) in
  with_pool st w' (add_timer t delay h 0 (timers st)).

(** [TimerHandle at(Timepoint when, Handler h)] *)
Definition at_ (when : Timepoint) (h : Handler) (st : State)
    : TimerHandle * State :=
  let '(t, w') := now (world st) in
  with_pool st w' (add_timer t (sub when t) h 0 (timers st)).

(** [TimerHandle every(Timepoint interval, Handler h)] *)
Definition every (interval : Timepoint) (h : Handler) (st : State)
    : TimerHandle * State :=
  let '(t, w') := now (world st) in
  with_pool st w' (add_timer t interval h interval (timers st)).

(** [TimerHandle now_and_every(Timepoint interval, Handler h)]:
    [return add_timer(now, now, h, interval);] *)
Definition now_and_every (interval : Timepoint) (h : Handler) (st : State)
    : TimerHandle * State :=
  let '(t, w') := now (world st) in
  with_pool st w' (add_timer t t h interval (timers st)).

(** [TimerHandle cancel(TimerHandle handle)] (cpp17 header). *)
Definition cancel (handle : TimerHandle) (st : State)
    : TimerHandle * State :=
  match handle with
  | None => (handle, st)
  | Some i =>
      if is_free (timers st !!! i) then (handle, st)
      else (handle,
            {| timers := remove (Some i) (timers st);
               world := world st; fired := fired st |})
  end.

(** [TimerHandle reschedule_in(TimerHandle handle, Timepoint delay)] *)
Definition reschedule_in (handle : TimerHandle) (delay : Timepoint)
    (st : State) : TimerHandle * State :=
  let '(t, w') := now (world st) in
  with_pool st w' (reschedule_timer handle t delay (timers st)).

(** [TimerHandle reschedule_at(TimerHandle handle, Timepoint when)] *)
Definition reschedule_at (handle : TimerHandle) (when : Timepoint)
    (st : State) : TimerHandle * State :=
  let '(t, w') := now (world st) in
  with_pool st w' (reschedule_timer handle t (sub when t) (timers st)).

(** The slot after [timer.start = now; timer.expires = e;]. *)
Definition rearm (t : Timepoint) (e : Timepoint) (timer : Timer) : Timer :=
  {| handler := handler timer; start := t; expires := e;
     repeat := repeat timer |}.

(** The [switch (status)] of [tick], run on the pool the handler left
    behind; [t] is the reading taken before the handler ran. *)
Definition apply_result (i : fin max_timers) (t : Timepoint)
    (res : HandlerResult) (ts : Pool) : Pool :=
  let timer := ts !!! i in
  match status res with
  | TimerStatus.completed => remove (Some i) ts
  | TimerStatus.repeat =>
      match impl with
      | Cpp17 =>
          if 0 <? repeat timer
          then vinsert i (rearm t (repeat timer) timer) ts
          else remove (Some i) ts
      | Legacy => vinsert i (rearm t (repeat timer) timer) ts
      end
  | TimerStatus.reschedule => vinsert i (rearm t (next res) timer) ts
  end.

(** One iteration of the first loop of [tick], for the slot [i]. *)
Definition tick_slot (st : State) (i : fin max_timers) : State :=
  let timer := timers st !!! i in
  match handler timer with
  | None => st
  | Some h =>
      let '(t, w1) := now (world st) in
      let elapsed := sub t (start timer) in
      if expires timer <=? elapsed then
        let '(res, (ts2, w2)) := invoke h (timers st, w1) in
        {| timers := apply_result i t res ts2; world := w2;
           fired := fired st ++ [(i, h)] |}
      else {| timers := timers st; world := w1; fired := fired st |}
  end.

(** The first loop of [tick]: [for (auto& timer : timers)]. *)
Definition dispatch (st : State) : State :=
  foldl tick_slot st (fin_enum max_timers).

(** [Timepoint remaining = timer.expires - (now - timer.start);] *)
Definition remaining (t : Timepoint) (timer : Timer) : Timepoint :=
  sub (expires timer) (sub t (start timer)).

(** One iteration of the second loop of [tick]. *)
Definition lower (t : Timepoint) (next_expiration : Timepoint)
    (timer : Timer) : Timepoint :=
  match handler timer with
  | None => next_expiration
  | Some _ =>
      if remaining t timer <? next_expiration
      then remaining t timer else next_expiration
  end.

(** [Timepoint tick()] *)
Definition tick (st : State) : Timepoint * State :=
  let st1 := dispatch st in
  let '(t, w') := now (world st1) in
  let next_expiration :=
    foldl (lower t) Timepoint_max (vec_to_list (timers st1)) in
  (if next_expiration =? Timepoint_max then 0 else next_expiration,
   {| timers := timers st1; world := w'; fired := fired st1 |}).


(** ** Vocabulary of the specification

    The definitions below do not come from the headers: they name what the
    specification talks about, so that it can be compared with the code. *)

(** The remaining times of the armed slots at the reading [t]. *)
Definition armed_remaining (t : Timepoint) (ts : Pool) : list Timepoint :=
  remaining t <$> filter (λ timer, is_armed timer = true) (vec_to_list ts).

(** The value the specification gives [tick]: the minimum of the remaining
    times of the armed slots, and 0 when no slot is armed. *)
Definition minimum_remaining (t : Timepoint) (ts : Pool) : Timepoint :=
  match armed_remaining t ts with
  | [] => 0
  | r :: rs => foldr Z.min r rs
  end.

(** The value the next [clock::now()] returns. *)
Definition reading (st : State) : Timepoint := (now (world st)).1.

(** The elapsed time [now() - start] of the slot [i] at that reading, and
    whether it has reached [expires]. *)
Definition elapsed (st : State) (i : fin max_timers) : Timepoint :=
  sub (reading st) (start (timers st !!! i)).

Definition due (st : State) (i : fin max_timers) : bool :=
  expires (timers st !!! i) <=? elapsed st i.

(** The state in which the dispatch loop of [tick] reaches the slot [i]. *)
Definition reach (st : State) (i : fin max_timers) : State :=
  foldl tick_slot st (take (fin_to_nat i) (fin_enum max_timers)).

(** The handler invocations logged for the slot [i]. *)
Definition fired_by (i : fin max_timers)
    (log : list (fin max_timers * Callable)) : list (fin max_timers * Callable) :=
  filter (λ e, e.1 = i) log.

(** A scheduling call with a non-empty handler. *)
Inductive Request :=
  | ReqIn (delay : Timepoint) (h : Callable)
  | ReqAt (when : Timepoint) (h : Callable)
  | ReqEvery (interval : Timepoint) (h : Callable)
  | ReqNowAndEvery (interval : Timepoint) (h : Callable).

Definition schedule (r : Request) (st : State) : TimerHandle * State :=
  match r with
  | ReqIn delay h => in_ delay (Some h) st
  | ReqAt when h => at_ when (Some h) st
  | ReqEvery interval h => every interval (Some h) st
  | ReqNowAndEvery interval h => now_and_every interval (Some h) st
  end.

(** A caller issuing the requests one after the other. *)
Definition schedule_all (rs : list Request) (st : State) : State :=
  foldl (λ s r, (schedule r s).2) st rs.

(** A scheduling call that failed and changed no slot. *)
Definition refused (res : TimerHandle * State) (st : State) : Prop :=
  res.1 = None ∧ timers res.2 = timers st.

(** Number of free slots. *)
Definition free_slots {n} (ts : vec Timer n) : nat :=
  length (filter (λ timer, is_free timer = true) (vec_to_list ts)).

(** ** The rest of the interface *)

(** [clock::delay] / [delay_func]: the blocking delay of the clock. *)
Variable clock_delay : Timepoint -> W -> W.

(** [void tick_and_delay()]: [clock::delay(tick());] *)
Definition tick_and_delay (st : State) : State :=
  let '(r, st') := tick st in
  {| timers := timers st'; world := clock_delay r (world st');
     fired := fired st' |}.

(** ** Vocabulary for the invariants of the pool *)

(** Handlers that do not call back into the timer set. *)
Definition pool_preserving : Prop :=
  forall c ts w, (invoke c (ts, w)).2.1 = ts.

(** A callable that never reports [repeat]. *)
Definition never_repeats (c : Callable) : Prop :=
  forall s, status (invoke c s).1 <> TimerStatus.repeat.

(** No timer without a repeat interval has a handler that reports
    [repeat]. *)
Definition repeat_has_interval (ts : Pool) : Prop :=
  forall i c,
    handler (ts !!! i) = Some c ->
    0 < repeat (ts !!! i) \/ never_repeats c.

(** Every free slot holds the values [remove] writes. *)
Definition neutral (ts : Pool) : Prop :=
  forall i, handler (ts !!! i) = None -> ts !!! i = cleared.

(** What may have become of a slot [a] when it reads [b] later: nothing,
    or, for an armed slot, it was cleared or it kept its handler and its
    repeat interval. *)
Definition kept (a b : Timer) : Prop :=
  b = a \/
  (is_armed a = true /\
   (b = cleared \/ (handler b = handler a /\ repeat b = repeat a))).

(** The slots below [k] are armed and the others are free. *)
Definition filled (k : nat) (ts : Pool) : Prop :=
  forall j,
    ((fin_to_nat j < k)%nat -> is_armed (ts !!! j) = true) /\
    ((k <= fin_to_nat j)%nat -> handler (ts !!! j) = None).

End TimerSet.

(** [#define TIMERSET_DEFAULT_TIMERS 0x10] *)
Definition TIMERSET_DEFAULT_TIMERS : nat := 16.

(** [TimerSet<> create_default()]: [return TimerSet<>();], a
    value-initialised set, in which every slot has no handler and zero
    fields. *)
Definition create_default {Callable W : Type} (w : W)
    : @State TIMERSET_DEFAULT_TIMERS Callable W :=
  {| timers := vreplicate TIMERSET_DEFAULT_TIMERS cleared; world := w;
     fired := [] |}.

(** [struct Clock] of the cpp17 header: the delays of its clocks, as the
    calls they make to the platform. *)
Module Clock.

Inductive Pause :=
  | delayMicroseconds (us : Z)
  | delay (ms : Z).

(** The time a call to the platform blocks for, in microseconds. *)
Definition pause_micros (p : Pause) : Z :=
  match p with
  | delayMicroseconds us => us
  | delay ms => 1000 * ms
  end.

(** [Clock::millis::delay(Timepoint until)]: [::delay(until);] *)
Definition millis_delay (until : Timepoint) : list Pause := [delay until].

(** [Clock::micros::delay(Timepoint until)], for an [unsigned long] of
    [bits] bits and an [unsigned int] of [int_bits] bits:
    [unsigned int micros = until % 1000; until -= micros; until /= 1000;
     ::delayMicroseconds(micros); ::delay(until);] *)
Definition micros_delay (bits int_bits : positive) (until : Timepoint)
    : list Pause :=
  let micros := (until mod 1000) mod 2 ^ Z.pos int_bits in
  let until1 := wrap bits (until - micros) in
  let until2 := until1 / 1000 in
  [delayMicroseconds micros; delay until2].

End Clock.


(** ** Concrete environments *)

Module Scenario.

(** The world is the script of the clock readings still to come. *)
Definition World := list Z.

Definition script_clock (w : World) : Z * World :=
  match w with
  | [] => (0, [])
  | t :: w' => (t, w')
  end.

(** Handlers that only report a result: the callable is the result. *)
Definition report {n} (r : HandlerResult)
    (s : @Pool n HandlerResult * World)
    : HandlerResult * (@Pool n HandlerResult * World) := (r, s).

(** A timer set with one slot. *)
Definition single (timer : @Timer HandlerResult) (w : World)
    : @State 1 HandlerResult World :=
  {| timers := [# timer]; world := w; fired := [] |}.


Definition completes : HandlerResult :=
  {| status := TimerStatus.completed; next := 0 |}.

Definition repeats : HandlerResult :=
  {| status := TimerStatus.repeat; next := 0 |}.

Definition reschedules (n : Timepoint) : HandlerResult :=
  {| status := TimerStatus.reschedule; next := n |}.

(** A one-shot timer of duration 1 started at 0; the clock reads 0 in the
    dispatch loop and 2 afterwards, so that the timer is overdue by one
    unit at the final reading. *)
Definition overdue_by_one : @State 1 HandlerResult World :=
  single {| handler := Some completes; start := 0; expires := 1;
            repeat := 0 |} [0; 2].

(** A timer with [repeat = 0], as [in] and [at] schedule them, that is due
    and whose handler reports [repeat]. *)
Definition repeat_without_interval : @State 1 HandlerResult World :=
  single {| handler := Some repeats; start := 0; expires := 10;
            repeat := 0 |} [10; 10; 11; 11].

(** An empty one-slot timer set; the clock reads 1000 three times. *)
Definition idle_at_1000 : @State 1 HandlerResult World :=
  single cleared [1000; 1000; 1000].


(** A delay that leaves the script of the clock alone. *)
Definition no_delay (r : Timepoint) (w : World) : World := w.

(** A timer set with two slots. *)
Definition double (timer0 timer1 : @Timer HandlerResult) (w : World)
    : @State 2 HandlerResult World :=
  {| timers := [# timer0; timer1]; world := w; fired := [] |}.

(** Two armed timers: a one-shot of 10 units and a periodic one of 25
    units, both started at 0; the clock reads 3 three times. *)
Definition two_timers : @State 2 HandlerResult World :=
  double {| handler := Some completes; start := 0; expires := 10;
            repeat := 0 |}
         {| handler := Some repeats; start := 0; expires := 25;
            repeat := 25 |} [3; 3; 3].

(** An empty two-slot set; the clock reads 7, 7, then 12. *)
Definition idle_pair : @State 2 HandlerResult World :=
  double cleared cleared [7; 7; 12; 12].

End Scenario.

(** * Properties *)

(** ** Unsigned arithmetic *)

Section Arithmetic.
Variable bits : positive.

Lemma modulus_ge_2 : 2 <= modulus bits.
Proof.
  unfold modulus. change 2 with (2 ^ 1) at 1.
  apply Z.pow_le_mono_r; lia.
Qed.

Lemma wrap_range z : 0 <= wrap bits z < modulus bits.
Proof. unfold wrap. apply Z.mod_pos_bound. pose proof modulus_ge_2. lia. Qed.

Lemma wrap_small z : 0 <= z < modulus bits -> wrap bits z = z.
Proof. intros Hz. unfold wrap. by apply Z.mod_small. Qed.

Lemma sub_range a b : 0 <= sub bits a b <= Timepoint_max bits.
Proof. unfold sub, Timepoint_max. pose proof (wrap_range (a - b)). lia. Qed.

(** The elapsed time read off a wrapped counter is the true elapsed time,
    whatever the position of the counter. *)
Lemma sub_elapsed s e :
  0 <= e < modulus bits -> sub bits (wrap bits (s + e)) s = e.
Proof.
  intros He. unfold sub, wrap.
  rewrite Zminus_mod_idemp_l.
  replace (s + e - s) with e by lia. by apply Z.mod_small.
Qed.

(** Subtracting a larger value underflows. *)
Lemma sub_underflow a b :
  0 <= a -> a < b -> b < modulus bits ->
  sub bits a b = modulus bits - (b - a).
Proof.
  intros Ha Hab Hb. unfold sub, wrap.
  symmetry. apply Z.mod_unique_pos with (q := -1); lia.
Qed.

End Arithmetic.

(** ** The pool *)

Section PoolFacts.
Context {Callable : Type}.
Implicit Types timer : @Timer Callable.

Lemma is_armed_free timer : is_armed timer = negb (is_free timer).
Proof. reflexivity. Qed.

Lemma find_free_Some {n} (ts : vec (@Timer Callable) n) i :
  find_free ts = Some i -> handler (ts !!! i) = (None : Handler).
Proof.
  induction ts as [|timer n ts IH]; simpl; [discriminate|].
  unfold is_free. destruct (handler timer) eqn:Hh.
  - destruct (find_free ts) as [j|] eqn:Hj; simpl; [|discriminate].
    intros [= <-]. simpl. by apply IH.
  - intros [= <-]. done.
Qed.

Lemma find_free_None {n} (ts : vec (@Timer Callable) n) :
  find_free ts = None <-> forall i, is_armed (ts !!! i) = true.
Proof.
  induction ts as [|timer n ts IH]; simpl.
  - split; [intros _ i; inversion i | done].
  - unfold is_armed at 1. destruct (is_free timer) eqn:Hf.
    + split; [discriminate|]. intros H. specialize (H 0%fin). simpl in H.
      unfold is_armed in H. rewrite Hf in H. discriminate.
    + destruct (find_free ts) as [j|] eqn:Hj; simpl.
      * split; [discriminate|]. intros H.
        destruct IH as [_ IH]. discriminate IH.
        intros i. apply (H (FS i)).
      * split; [|done]. intros _ i. inv_fin i; simpl.
        -- unfold is_armed. by rewrite Hf.
        -- intros i. by apply IH.
Qed.

Lemma free_slots_cons {n} timer (ts : vec (@Timer Callable) n) :
  free_slots (timer ::: ts) =
  ((if is_free timer then 1 else 0) + free_slots ts)%nat.
Proof.
  unfold free_slots. simpl. rewrite filter_cons.
  destruct (is_free timer); case_decide; simpl; congruence.
Qed.

Lemma free_slots_le {n} (ts : vec (@Timer Callable) n) : (free_slots ts <= n)%nat.
Proof.
  induction ts as [|timer n ts IH]; [done|].
  rewrite free_slots_cons. destruct (is_free timer); lia.
Qed.

Lemma free_slots_find_free {n} (ts : vec (@Timer Callable) n) :
  free_slots ts = 0%nat <-> find_free ts = None.
Proof.
  induction ts as [|timer n ts IH]; [done|].
  rewrite free_slots_cons. simpl. destruct (is_free timer).
  - split; [lia | discriminate].
  - rewrite Nat.add_0_l, IH. destruct (find_free ts); simpl; split; congruence.
Qed.

(** Filling the slot found by the scan with a non-empty handler uses up
    one free slot. *)
Lemma free_slots_fill {n} (ts : vec (@Timer Callable) n) i timer :
  find_free ts = Some i -> is_free timer = false ->
  free_slots (vinsert i timer ts) = Nat.pred (free_slots ts).
Proof.
  intros Hi Ht. induction ts as [|t0 n ts IH]; [inversion i|].
  simpl in Hi. destruct (is_free t0) eqn:Hf.
  - injection Hi as <-. simpl. rewrite !free_slots_cons, Ht, Hf. lia.
  - destruct (find_free ts) as [j|] eqn:Hj; simpl in Hi; [|discriminate].
    injection Hi as <-. simpl. rewrite !free_slots_cons, Hf.
    rewrite !Nat.add_0_l. by apply IH.
Qed.

End PoolFacts.

(** ** Scheduling *)

Section Scheduling.
Variable bits : positive.
Context {max_timers : nat} {Callable W : Type}.
Variable clock_now : W -> Z * W.
Implicit Types st : @State max_timers Callable W.
Implicit Types ts : @Pool max_timers Callable.
Implicit Types h : @Handler Callable.

Lemma add_timer_full ts s e h r :
  (forall i, is_armed (ts !!! i) = true) -> add_timer s e h r ts = (None, ts).
Proof.
  intros Hfull. unfold add_timer, next_timer_slot.
  by apply find_free_None in Hfull as ->.
Qed.

Lemma add_timer_slot ts s e h r it ts' :
  add_timer s e h r ts = (Some it, ts') ->
  handler (ts !!! it) = None /\
  ts' = vinsert it {| handler := h; start := s; expires := e; repeat := r |} ts.
Proof.
  unfold add_timer, next_timer_slot.
  destruct (find_free ts) as [j|] eqn:Hj; [|discriminate].
  intros [= <- <-]. split; [by apply find_free_Some | done].
Qed.

Lemma add_timer_free_slots ts s e (c : Callable) r :
  free_slots (add_timer s e (Some c) r ts).2 = Nat.pred (free_slots ts).
Proof.
  unfold add_timer, next_timer_slot.
  destruct (find_free ts) as [j|] eqn:Hj; simpl.
  - by apply free_slots_fill.
  - apply free_slots_find_free in Hj. by rewrite Hj.
Qed.

(** The four scheduling calls are [add_timer] after one clock reading. *)
Lemma in_eq d h st :
  in_ bits clock_now d h st =
  with_pool st (now bits clock_now (world st)).2
    (add_timer (now bits clock_now (world st)).1 d h 0 (timers st)).
Proof. unfold in_. by destruct (now bits clock_now (world st)). Qed.

Lemma at_eq w h st :
  at_ bits clock_now w h st =
  with_pool st (now bits clock_now (world st)).2
    (add_timer (now bits clock_now (world st)).1
       (sub bits w (now bits clock_now (world st)).1) h 0 (timers st)).
Proof. unfold at_. by destruct (now bits clock_now (world st)). Qed.

Lemma every_eq d h st :
  every bits clock_now d h st =
  with_pool st (now bits clock_now (world st)).2
    (add_timer (now bits clock_now (world st)).1 d h d (timers st)).
Proof. unfold every. by destruct (now bits clock_now (world st)). Qed.

Lemma now_and_every_eq d h st :
  now_and_every bits clock_now d h st =
  with_pool st (now bits clock_now (world st)).2
    (add_timer (now bits clock_now (world st)).1
       (now bits clock_now (world st)).1 h d (timers st)).
Proof. unfold now_and_every. by destruct (now bits clock_now (world st)). Qed.

Lemma with_pool_refused {st} w' s e h r :
  (forall i, is_armed (timers st !!! i) = true) ->
  refused (with_pool st w' (add_timer s e h r (timers st))) st.
Proof. intros Hfull. by rewrite add_timer_full. Qed.

Lemma schedule_free_slots r st :
  free_slots (timers (schedule bits clock_now r st).2) =
  Nat.pred (free_slots (timers st)).
Proof.
  destruct r; simpl;
    rewrite ?in_eq, ?at_eq, ?every_eq, ?now_and_every_eq;
    apply add_timer_free_slots.
Qed.

Lemma schedule_all_free_slots rs st :
  free_slots (timers (schedule_all bits clock_now rs st)) =
  (free_slots (timers st) - length rs)%nat.
Proof.
  revert st. induction rs as [|r rs IH]; intros st; simpl.
  - lia.
  - unfold schedule_all in *. simpl. rewrite IH, schedule_free_slots. lia.
Qed.

Lemma schedule_refused r st :
  (forall i, is_armed (timers st !!! i) = true) ->
  refused (schedule bits clock_now r st) st.
Proof.
  intros Hfull. destruct r; simpl;
    rewrite ?in_eq, ?at_eq, ?every_eq, ?now_and_every_eq;
    by apply with_pool_refused.
Qed.

(** C5. When every slot is armed, [in], [at], [every] and [now_and_every]
    return the empty handle and leave every slot as it was; and after
    [max_timers] scheduling calls with a non-empty handler every slot is
    armed, so that one more call is refused in this way. *)
Theorem full_pool_refuses_scheduling :
  (forall st, (forall i, is_armed (timers st !!! i) = true) ->
     forall (d : Timepoint) h,
       refused (in_ bits clock_now d h st) st /\
       refused (at_ bits clock_now d h st) st /\
       refused (every bits clock_now d h st) st /\
       refused (now_and_every bits clock_now d h st) st) /\
  (forall st rs r, length rs = max_timers ->
     let st' := schedule_all bits clock_now rs st in
     (forall i, is_armed (timers st' !!! i) = true) /\
     refused (schedule bits clock_now r st') st').
Proof.
  split.
  - intros st Hfull d h.
    rewrite in_eq, at_eq, every_eq, now_and_every_eq.
    repeat split; by rewrite add_timer_full.
  - intros st rs r Hlen st'.
    assert (Hfull : forall i, is_armed (timers st' !!! i) = true).
    { apply find_free_None, free_slots_find_free. subst st'.
      rewrite schedule_all_free_slots, Hlen.
      pose proof (free_slots_le (timers st)). lia. }
    split; [done|]. by apply schedule_refused.
Qed.

End Scheduling.

(** ** The dispatch loop *)

Section Dispatch.
Variable bits : positive.
Context {max_timers : nat} {Callable W : Type}.
Variable clock_now : W -> Z * W.
Variable invoke :
  Callable -> @Pool max_timers Callable * W ->
  HandlerResult * (@Pool max_timers Callable * W).
Variable impl : Impl.
Implicit Types st : @State max_timers Callable W.
Implicit Types ts : @Pool max_timers Callable.
Implicit Types i j : fin max_timers.
Implicit Types c : Callable.

Lemma tick_slot_free st i :
  handler (timers st !!! i) = None ->
  tick_slot bits clock_now invoke impl st i = st.
Proof. intros Hh. unfold tick_slot. by rewrite Hh. Qed.

Lemma tick_slot_skip st i c :
  handler (timers st !!! i) = Some c ->
  due bits clock_now st i = false ->
  tick_slot bits clock_now invoke impl st i =
  {| timers := timers st; world := (now bits clock_now (world st)).2;
     fired := fired st |}.
Proof.
  intros Hh Hd. unfold tick_slot, due, elapsed, reading in *. rewrite Hh.
  destruct (now bits clock_now (world st)) as [t w1]; simpl in *.
  by rewrite Hd.
Qed.

Lemma tick_slot_fire st i c :
  handler (timers st !!! i) = Some c ->
  due bits clock_now st i = true ->
  tick_slot bits clock_now invoke impl st i =
  let r := invoke c (timers st, (now bits clock_now (world st)).2) in
  {| timers := apply_result impl i (reading bits clock_now st) r.1 r.2.1;
     world := r.2.2;
     fired := fired st ++ [(i, c)] |}.
Proof.
  intros Hh Hd. unfold tick_slot, due, elapsed, reading in *. rewrite Hh.
  destruct (now bits clock_now (world st)) as [t w1]; simpl in *.
  rewrite Hd. by destruct (invoke c (timers st, w1)) as [res [ts2 w2]].
Qed.

(** What one iteration adds to the log. *)
Lemma tick_slot_fired st i :
  fired (tick_slot bits clock_now invoke impl st i) =
  fired st ++
  match handler (timers st !!! i) with
  | Some c => if due bits clock_now st i then [(i, c)] else []
  | None => []
  end.
Proof.
  destruct (handler (timers st !!! i)) as [c|] eqn:Hh.
  - destruct (due bits clock_now st i) eqn:Hd.
    + by rewrite (tick_slot_fire _ _ _ Hh Hd).
    + rewrite (tick_slot_skip _ _ _ Hh Hd). simpl. by rewrite app_nil_r.
  - rewrite (tick_slot_free _ _ Hh). by rewrite app_nil_r.
Qed.

Lemma tick_slot_fired_by_ne st i j :
  i <> j ->
  fired_by i (fired (tick_slot bits clock_now invoke impl st j)) =
  fired_by i (fired st).
Proof.
  intros Hij. rewrite tick_slot_fired. unfold fired_by.
  rewrite filter_app.
  destruct (handler (timers st !!! j)) as [c|];
    [destruct (due bits clock_now st j)|]; rewrite ?app_nil_r; try done.
  rewrite filter_cons. simpl. case_decide; [congruence|].
  by rewrite filter_nil, app_nil_r.
Qed.

Lemma foldl_tick_slot_fired_by st i (l : list (fin max_timers)) :
  i ∉ l ->
  fired_by i (fired (foldl (tick_slot bits clock_now invoke impl) st l)) =
  fired_by i (fired st).
Proof.
  revert st. induction l as [|j l IH]; intros st Hi; [done|].
  simpl. rewrite IH by (by apply not_elem_of_cons in Hi as [_ ?]).
  apply tick_slot_fired_by_ne. by apply not_elem_of_cons in Hi as [? _].
Qed.

Lemma fin_enum_lookup n (i : fin n) : fin_enum n !! fin_to_nat i = Some i.
Proof.
  induction i as [n|n i IH]; simpl; [done|].
  by rewrite list_lookup_fmap, IH.
Qed.

(** The loop visits every slot once, in index order. *)
Lemma fin_enum_split n (i : fin n) :
  exists after,
    fin_enum n = take (fin_to_nat i) (fin_enum n) ++ i :: after /\
    (i ∉ take (fin_to_nat i) (fin_enum n)) /\ (i ∉ after).
Proof.
  exists (drop (S (fin_to_nat i)) (fin_enum n)).
  assert (E : fin_enum n =
    take (fin_to_nat i) (fin_enum n) ++ i :: drop (S (fin_to_nat i)) (fin_enum n)).
  { symmetry. apply take_drop_middle, fin_enum_lookup. }
  split; [done|].
  pose proof (NoDup_enum (fin n)) as Hnd. simpl in Hnd. rewrite E in Hnd.
  apply NoDup_app in Hnd as (_ & Hl & Hr). split.
  - intros Hin. apply (Hl _ Hin). by left.
  - by apply NoDup_cons in Hr as [? _].
Qed.

Lemma dispatch_reach st i :
  exists after,
    (i ∉ after) /\
    dispatch bits clock_now invoke impl st =
    foldl (tick_slot bits clock_now invoke impl)
      (tick_slot bits clock_now invoke impl
         (reach bits clock_now invoke impl st i) i) after.
Proof.
  destruct (fin_enum_split max_timers i) as (after & E & _ & Hafter).
  exists after. split; [done|].
  unfold dispatch, reach. rewrite E at 1. by rewrite foldl_app.
Qed.

(** During one pass the handler of the slot [i] is called once if the slot
    is armed and due when the loop reaches it, and not at all otherwise. *)
Lemma dispatch_fired_by st i :
  fired_by i (fired (dispatch bits clock_now invoke impl st)) =
  fired_by i (fired st) ++
  match handler (timers (reach bits clock_now invoke impl st i) !!! i) with
  | Some c =>
      if due bits clock_now (reach bits clock_now invoke impl st i) i
      then [(i, c)] else []
  | None => []
  end.
Proof.
  destruct (dispatch_reach st i) as (after & Hafter & ->).
  rewrite foldl_tick_slot_fired_by by done.
  rewrite tick_slot_fired. unfold fired_by at 1. rewrite filter_app.
  f_equal.
  - unfold reach. apply foldl_tick_slot_fired_by.
    by destruct (fin_enum_split max_timers i) as (? & _ & ? & _).
  - destruct (handler _) as [c|];
      [destruct (due _ _ _ _)|]; try done.
    rewrite filter_cons. simpl. by case_decide.
Qed.

(** What [in] leaves in the slot it returns. *)
Lemma in_slot st d (h : Handler) i st1 :
  in_ bits clock_now d h st = (Some i, st1) ->
  timers st1 !!! i =
  {| handler := h; start := reading bits clock_now st; expires := d;
     repeat := 0 |}.
Proof.
  rewrite in_eq. unfold with_pool, reading.
  destruct (add_timer _ _ _ _ _) as [hd ts'] eqn:Ha. simpl.
  intros [= -> <-]. simpl.
  apply add_timer_slot in Ha as [_ ->]. apply vlookup_insert.
Qed.

Lemma due_spec st i :
  due bits clock_now st i = true <->
  expires (timers st !!! i) <= elapsed bits clock_now st i.
Proof. unfold due. apply Z.leb_le. Qed.

Lemma not_due_spec st i :
  due bits clock_now st i = false <->
  elapsed bits clock_now st i < expires (timers st !!! i).
Proof. unfold due. apply Z.leb_gt. Qed.

(** One iteration at an armed slot, as a function of the elapsed time: the
    handler is run on the pool and on the world left by the clock reading,
    and its outcome applied, or nothing but the clock reading happens. *)
Lemma tick_slot_by_elapsed st i c x :
  handler (timers st !!! i) = Some c ->
  elapsed bits clock_now st i = x ->
  (expires (timers st !!! i) <= x ->
   let r := invoke c (timers st, (now bits clock_now (world st)).2) in
   tick_slot bits clock_now invoke impl st i =
   {| timers := apply_result impl i (reading bits clock_now st) r.1 r.2.1;
      world := r.2.2;
      fired := fired st ++ [(i, c)] |}) /\
  (x < expires (timers st !!! i) ->
   tick_slot bits clock_now invoke impl st i =
   {| timers := timers st; world := (now bits clock_now (world st)).2;
      fired := fired st |}).
Proof.
  intros Hh <-. split.
  - intros Hd%due_spec. by rewrite (tick_slot_fire _ _ _ Hh Hd).
  - intros Hd%not_due_spec. by rewrite (tick_slot_skip _ _ _ Hh Hd).
Qed.


End Dispatch.

(** ** Handler outcomes *)

Section Outcome.
Context {max_timers : nat} {Callable : Type}.
Implicit Types ts : @Pool max_timers Callable.
Implicit Types i j : fin max_timers.

Lemma remove_slot i ts : remove (Some i) ts !!! i = cleared.
Proof. apply vlookup_insert. Qed.

Lemma remove_other i j ts : i <> j -> remove (Some i) ts !!! j = ts !!! j.
Proof. intros Hij. by apply vlookup_insert_ne. Qed.

(** The outcome of a handler touches the slot that fired only. *)
Lemma apply_result_other impl i j t res ts :
  i <> j -> apply_result impl i t res ts !!! j = ts !!! j.
Proof.
  intros Hij. unfold apply_result, remove.
  destruct (status res), impl; try destruct (0 <? _);
    by apply vlookup_insert_ne.
Qed.

Lemma apply_result_completed impl i t res ts :
  status res = TimerStatus.completed ->
  apply_result impl i t res ts !!! i = cleared.
Proof. intros Hs. unfold apply_result. rewrite Hs. apply remove_slot. Qed.

Lemma apply_result_repeat_cpp17 i t res ts :
  status res = TimerStatus.repeat ->
  apply_result Cpp17 i t res ts !!! i =
  if 0 <? repeat (ts !!! i)
  then rearm t (repeat (ts !!! i)) (ts !!! i) else cleared.
Proof.
  intros Hs. unfold apply_result. rewrite Hs.
  destruct (0 <? _); [apply vlookup_insert | apply remove_slot].
Qed.

Lemma apply_result_repeat_legacy i t res ts :
  status res = TimerStatus.repeat ->
  apply_result Legacy i t res ts !!! i =
  rearm t (repeat (ts !!! i)) (ts !!! i).
Proof. intros Hs. unfold apply_result. rewrite Hs. apply vlookup_insert. Qed.



End Outcome.

Section Repeat.
Variable bits : positive.
Context {max_timers : nat} {Callable W : Type}.
Variable clock_now : W -> Z * W.
Variable invoke :
  Callable -> @Pool max_timers Callable * W ->
  HandlerResult * (@Pool max_timers Callable * W).
Implicit Types st : @State max_timers Callable W.
Implicit Types i : fin max_timers.

(** In the cpp17 header a due slot whose handler reports [repeat] is
    rearmed from the firing reading when its [repeat] field is positive,
    and freed when that field is 0.  The field is read after the handler
    returned, in the pool the handler left. *)
Lemma repeat_outcome_cpp17 st i c :
  handler (timers st !!! i) = Some c ->
  due bits clock_now st i = true ->
  let r := invoke c (timers st, (now bits clock_now (world st)).2) in
  let after := timers (tick_slot bits clock_now invoke Cpp17 st i) !!! i in
  status r.1 = TimerStatus.repeat ->
  (0 < repeat (r.2.1 !!! i) ->
   after = {| handler := handler (r.2.1 !!! i);
              start := reading bits clock_now st;
              expires := repeat (r.2.1 !!! i);
              repeat := repeat (r.2.1 !!! i) |}) /\
  (repeat (r.2.1 !!! i) = 0 -> after = cleared).
Proof.
  intros Hh Hd r after Hs. subst after.
  rewrite (tick_slot_fire _ _ _ _ _ _ _ Hh Hd). simpl. fold r.
  rewrite apply_result_repeat_cpp17 by done. split.
  - intros Hpos. apply Z.ltb_lt in Hpos. by rewrite Hpos.
  - intros ->. done.
Qed.

(** The legacy header rearms whatever the [repeat] field holds. *)
Lemma repeat_outcome_legacy st i c :
  handler (timers st !!! i) = Some c ->
  due bits clock_now st i = true ->
  let r := invoke c (timers st, (now bits clock_now (world st)).2) in
  status r.1 = TimerStatus.repeat ->
  timers (tick_slot bits clock_now invoke Legacy st i) !!! i =
  {| handler := handler (r.2.1 !!! i);
     start := reading bits clock_now st;
     expires := repeat (r.2.1 !!! i);
     repeat := repeat (r.2.1 !!! i) |}.
Proof.
  intros Hh Hd r Hs.
  rewrite (tick_slot_fire _ _ _ _ _ _ _ Hh Hd). simpl. fold r.
  by rewrite apply_result_repeat_legacy.
Qed.

End Repeat.

(** C3. In the legacy header ([arduino-timer.h]) a due timer with
    [repeat = 0] whose handler reports [repeat] is not freed: the slot
    stays armed with [expires = 0] and fires again on the next tick.  On
    the same input the cpp17 header frees the slot. *)
Theorem legacy_repeat_without_interval_stays_armed :
  timers (tick 32 Scenario.script_clock Scenario.report Legacy
            Scenario.repeat_without_interval).2 =
    [# {| handler := Some Scenario.repeats; start := 10; expires := 0;
          repeat := 0 |}] /\
  fired (tick 32 Scenario.script_clock Scenario.report Legacy
           (tick 32 Scenario.script_clock Scenario.report Legacy
              Scenario.repeat_without_interval).2).2 =
    [(0%fin, Scenario.repeats); (0%fin, Scenario.repeats)] /\
  timers (tick 32 Scenario.script_clock Scenario.report Cpp17
            Scenario.repeat_without_interval).2 = [# cleared].
Proof. vm_compute. done. Qed.

(** A timer scheduled as [every(10, h)] whose handler reports
    [reschedule] with [next = 30] is rearmed for 30 units, in both
    headers. *)
Example reschedule_overrides_repeat impl :
  timers (tick 32 Scenario.script_clock Scenario.report impl
            (Scenario.single
               {| handler := Some (Scenario.reschedules 30); start := 0;
                  expires := 10; repeat := 10 |} [10; 10])).2 =
  [# {| handler := Some (Scenario.reschedules 30); start := 10;
        expires := 30; repeat := 10 |}].
Proof. by destruct impl; vm_compute. Qed.

(** ** The payload of a handler result *)

Section Payload.
Variable bits : positive.
Context {max_timers : nat} {Callable W : Type}.
Variable clock_now : W -> Z * W.
Variables invoke1 invoke2 :
  Callable -> @Pool max_timers Callable * W ->
  HandlerResult * (@Pool max_timers Callable * W).
Variable impl : Impl.
Implicit Types st : @State max_timers Callable W.
Implicit Types i : fin max_timers.




End Payload.

(** ** The value returned by [tick] *)

Section TickValue.
Variable bits : positive.

Lemma foldl_min_spec (l : list Z) acc :
  foldl Z.min acc l <= acc /\
  (forall x, x ∈ l -> foldl Z.min acc l <= x) /\
  (foldl Z.min acc l = acc \/ foldl Z.min acc l ∈ l).
Proof.
  revert acc. induction l as [|y l IH]; intros acc; simpl.
  - split; [lia|]. split; [|by left]. intros x Hx. by apply elem_of_nil in Hx.
  - destruct (IH (Z.min acc y)) as (Hle & Hall & Hmem).
    split; [lia|]. split.
    + intros x [->|Hx]%elem_of_cons; [lia | by apply Hall].
    + destruct Hmem as [Hm|Hm]; [|right; by right].
      rewrite Hm.
      destruct (Z.min_spec acc y) as [[_ ->]|[_ ->]]; [by left|].
      right. by left.
Qed.

Lemma foldr_min_spec (l : list Z) r :
  foldr Z.min r l <= r /\
  (forall x, x ∈ l -> foldr Z.min r l <= x) /\
  (foldr Z.min r l = r \/ foldr Z.min r l ∈ l).
Proof.
  induction l as [|y l (Hle & Hall & Hmem)]; simpl.
  - split; [lia|]. split; [|by left]. intros x Hx. by apply elem_of_nil in Hx.
  - split; [lia|]. split.
    + intros x [->|Hx]%elem_of_cons; [lia|]. specialize (Hall x Hx). lia.
    + destruct (Z.min_spec y (foldr Z.min r l)) as [[_ E]|[_ E]]; rewrite E.
      * right. by left.
      * destruct Hmem as [Hm|Hm]; [by left | right; by right].
Qed.

Context {Callable : Type}.

(** The second loop of [tick] is a running minimum over the armed
    slots. *)
Lemma foldl_lower t (l : list (@Timer Callable)) acc :
  foldl (lower bits t) acc l =
  foldl Z.min acc
    (remaining bits t <$> filter (λ timer, is_armed timer = true) l).
Proof.
  revert acc. induction l as [|timer l IH]; intros acc; [done|].
  simpl. rewrite filter_cons. rewrite IH.
  unfold lower, is_armed, is_free.
  destruct (handler timer); simpl; [|done].
  f_equal. destruct (Z.ltb_spec (remaining bits t timer) acc); lia.
Qed.

Lemma remaining_range t (timer : @Timer Callable) :
  0 <= remaining bits t timer <= Timepoint_max bits.
Proof. apply sub_range. Qed.

(** [minimum_remaining] is the least of the remaining times of the armed
    slots when there is one. *)
Lemma minimum_remaining_is_least {n} t (ts : @Pool n Callable) :
  armed_remaining bits t ts <> [] ->
  minimum_remaining bits t ts ∈ armed_remaining bits t ts /\
  forall x, x ∈ armed_remaining bits t ts -> minimum_remaining bits t ts <= x.
Proof.
  unfold minimum_remaining.
  destruct (armed_remaining bits t ts) as [|r rs]; [done|]. intros _.
  destruct (foldr_min_spec rs r) as (Hr1 & Hr & Hrm). split.
  - destruct Hrm as [->|?]; [by left | by right].
  - intros x [->|Hx]%elem_of_cons; [done | by apply Hr].
Qed.

Lemma lowest_remaining {n} t (ts : @Pool n Callable) :
  foldl (lower bits t) (Timepoint_max bits) (vec_to_list ts) =
  match armed_remaining bits t ts with
  | [] => Timepoint_max bits
  | _ :: _ => minimum_remaining bits t ts
  end.
Proof.
  rewrite foldl_lower. unfold minimum_remaining, armed_remaining.
  assert (Hrange : forall x,
    x ∈ remaining bits t <$>
        filter (λ timer, is_armed timer = true) (vec_to_list ts) ->
    x <= Timepoint_max bits).
  { intros x (timer & -> & _)%list_elem_of_fmap. apply remaining_range. }
  destruct (remaining bits t <$> _) as [|r rs]; [done|].
  destruct (foldl_min_spec (r :: rs) (Timepoint_max bits)) as (_ & Hl & Hlm).
  destruct (foldr_min_spec rs r) as (Hr1 & Hr & Hrm).
  assert (Hin : foldr Z.min r rs ∈ r :: rs).
  { destruct Hrm as [->|?]; [by left | by right]. }
  apply Z.le_antisymm; [by apply Hl|].
  destruct Hlm as [->|Hm]; [by apply Hrange|].
  apply elem_of_cons in Hm as [->|Hm]; [done | by apply Hr].
Qed.

End TickValue.

Section TickResult.
Variable bits : positive.
Context {max_timers : nat} {Callable W : Type}.
Variable clock_now : W -> Z * W.
Variable invoke :
  Callable -> @Pool max_timers Callable * W ->
  HandlerResult * (@Pool max_timers Callable * W).
Variable impl : Impl.
Implicit Types st : @State max_timers Callable W.

Lemma tick_eq st :
  tick bits clock_now invoke impl st =
  let st1 := dispatch bits clock_now invoke impl st in
  let lowest :=
    foldl (lower bits (reading bits clock_now st1)) (Timepoint_max bits)
      (vec_to_list (timers st1)) in
  (if lowest =? Timepoint_max bits then 0 else lowest,
   {| timers := timers st1; world := (now bits clock_now (world st1)).2;
      fired := fired st1 |}).
Proof.
  unfold tick, reading.
  by destruct (now bits clock_now (world (dispatch _ _ _ _ st))).
Qed.

(** The value of [tick] in terms of the minimum the specification names:
    the sentinel [max()] of the running minimum is turned into 0. *)
Lemma tick_value st :
  (tick bits clock_now invoke impl st).1 =
  let st1 := dispatch bits clock_now invoke impl st in
  let m := minimum_remaining bits (reading bits clock_now st1) (timers st1) in
  if m =? Timepoint_max bits then 0 else m.
Proof.
  rewrite tick_eq. simpl. rewrite lowest_remaining.
  unfold minimum_remaining.
  destruct (armed_remaining bits _ _) as [|r rs]; [|done].
  rewrite Z.eqb_refl.
  assert ((0 =? Timepoint_max bits) = false) as ->; [|done].
  apply Z.eqb_neq. unfold Timepoint_max. pose proof (modulus_ge_2 bits). lia.
Qed.


End TickResult.


Lemma overdue_by_one_remaining bits :
  sub bits 1 (sub bits (wrap bits 2) 0) = Timepoint_max bits.
Proof.
  pose proof (modulus_ge_2 bits) as Hm. unfold Timepoint_max.
  destruct (Z.eq_dec (modulus bits) 2) as [E|E].
  - unfold sub, wrap. rewrite E. reflexivity.
  - rewrite (wrap_small bits 2) by lia.
    assert (sub bits 2 0 = 2) as ->.
    { unfold sub. apply wrap_small. lia. }
    rewrite sub_underflow; lia.
Qed.

Lemma overdue_by_one_tick bits impl :
  tick bits Scenario.script_clock Scenario.report impl
    Scenario.overdue_by_one =
  (0, {| timers := timers Scenario.overdue_by_one; world := [];
         fired := [] |}).
Proof.
  unfold tick, dispatch. simpl.
  unfold tick_slot, now. simpl.
  unfold lower, remaining. simpl.
  rewrite overdue_by_one_remaining.
  pose proof (modulus_ge_2 bits) as Hm.
  assert ((Timepoint_max bits <? Timepoint_max bits) = false) as ->
    by (apply Z.ltb_irrefl).
  by rewrite Z.eqb_refl.
Qed.

(** C10. A return value of 0 does not mean that no timer is armed: for
    every width of [Timepoint] and both headers, [tick] returns 0 on a
    timer set whose only slot holds a timer overdue by one unit at the
    final reading, and the slot is armed before and after the call.  More
    generally [tick] returns 0 whenever the minimum of the remaining times
    is the largest [Timepoint]. *)
Theorem zero_does_not_mean_no_armed_timer :
  (forall bits impl,
     is_armed (timers Scenario.overdue_by_one !!! 0%fin) = true /\
     (tick bits Scenario.script_clock Scenario.report impl
        Scenario.overdue_by_one).1 = 0 /\
     is_armed
       (timers (tick bits Scenario.script_clock Scenario.report impl
                  Scenario.overdue_by_one).2 !!! 0%fin) = true) /\
  (forall bits (max_timers : nat) (Callable W : Type) clock_now invoke impl
          (st : @State max_timers Callable W),
     minimum_remaining bits
       (reading bits clock_now (dispatch bits clock_now invoke impl st))
       (timers (dispatch bits clock_now invoke impl st)) =
     Timepoint_max bits ->
     (tick bits clock_now invoke impl st).1 = 0).
Proof.
  split.
  - intros bits impl. by rewrite overdue_by_one_tick.
  - intros bits n C W clock_now invoke impl st Hm.
    rewrite tick_value. simpl. rewrite Hm. by rewrite Z.eqb_refl.
Qed.

(** ** Timers seen at their true elapsed time *)

Section Elapsed.
Variable bits : positive.
Context {max_timers : nat} {Callable W : Type}.
Variable clock_now : W -> Z * W.
Variable invoke :
  Callable -> @Pool max_timers Callable * W ->
  HandlerResult * (@Pool max_timers Callable * W).
Variable impl : Impl.
Implicit Types st : @State max_timers Callable W.
Implicit Types i j : fin max_timers.

(** A slot started at the reading [s] and reached by the loop [e] units
    later fires when [e] has reached its duration, and not before. *)
Lemma tick_slot_at_elapsed st i c s d r e :
  timers st !!! i =
    {| handler := Some c; start := s; expires := d; repeat := r |} ->
  0 <= e < modulus bits ->
  reading bits clock_now st = wrap bits (s + e) ->
  (e < d ->
   fired (tick_slot bits clock_now invoke impl st i) = fired st /\
   timers (tick_slot bits clock_now invoke impl st i) = timers st) /\
  (d <= e ->
   fired (tick_slot bits clock_now invoke impl st i) = fired st ++ [(i, c)]).
Proof.
  intros Hslot He Hread.
  assert (Hh : handler (timers st !!! i) = Some c) by (by rewrite Hslot).
  assert (Hel : elapsed bits clock_now st i = e).
  { unfold elapsed. rewrite Hslot, Hread. simpl. by apply sub_elapsed. }
  split; intros Hd.
  - assert (Hnd : due bits clock_now st i = false).
    { apply not_due_spec. rewrite Hel, Hslot. done. }
    by rewrite (tick_slot_skip _ _ _ _ _ _ _ Hh Hnd).
  - assert (Hdue : due bits clock_now st i = true).
    { apply due_spec. rewrite Hel, Hslot. done. }
    by rewrite (tick_slot_fire _ _ _ _ _ _ _ Hh Hdue).
Qed.

(** What [at] and [now_and_every] leave in the slot they return. *)
Lemma at_slot st when (h : Handler) i st1 :
  at_ bits clock_now when h st = (Some i, st1) ->
  timers st1 !!! i =
  {| handler := h; start := reading bits clock_now st;
     expires := sub bits when (reading bits clock_now st); repeat := 0 |}.
Proof.
  rewrite at_eq. unfold with_pool, reading.
  destruct (add_timer _ _ _ _ _) as [hd ts'] eqn:Ha. simpl.
  intros [= -> <-]. simpl.
  apply add_timer_slot in Ha as [_ ->]. apply vlookup_insert.
Qed.

Lemma now_and_every_slot st interval (h : Handler) i st1 :
  now_and_every bits clock_now interval h st = (Some i, st1) ->
  timers st1 !!! i =
  {| handler := h; start := reading bits clock_now st;
     expires := reading bits clock_now st; repeat := interval |}.
Proof.
  rewrite now_and_every_eq. unfold with_pool, reading.
  destruct (add_timer _ _ _ _ _) as [hd ts'] eqn:Ha. simpl.
  intros [= -> <-]. simpl.
  apply add_timer_slot in Ha as [_ ->]. apply vlookup_insert.
Qed.

Lemma reading_range st :
  0 <= reading bits clock_now st < modulus bits.
Proof.
  unfold reading, now. destruct (clock_now (world st)). apply wrap_range.
Qed.

(** A timer scheduled with [now_and_every] waits until as much time has
    passed as the clock showed when it was scheduled. *)
Lemma now_and_every_first_fire st interval c i st1 st2 e :
  now_and_every bits clock_now interval (Some c) st = (Some i, st1) ->
  timers st2 !!! i = timers st1 !!! i ->
  0 <= e < modulus bits ->
  reading bits clock_now st2 = wrap bits (reading bits clock_now st + e) ->
  (e < reading bits clock_now st ->
   fired (tick_slot bits clock_now invoke impl st2 i) = fired st2) /\
  (reading bits clock_now st <= e ->
   fired (tick_slot bits clock_now invoke impl st2 i) = fired st2 ++ [(i, c)]).
Proof.
  intros Hs%now_and_every_slot Hslot He Hread. rewrite Hs in Hslot.
  destruct (tick_slot_at_elapsed _ _ _ _ _ _ _ Hslot He Hread) as [Hlt Hge].
  split; [|done]. intros Hd. by apply Hlt.
Qed.

(** C7 (amended). [at(w, h)] stores the start [now()] and the duration
    [w - now()] taken modulo the range of [Timepoint], with no special
    case.  When [w] is behind the reading by a distance [d], the duration
    is the range minus [d], which is positive: it is at least half the
    range when [d] is at most half the range, and below half the range
    when [d] is above it.  The handler is not run before that much time
    has passed, and is run from then on. *)
Theorem at_stores_wrapped_difference st when (h : Handler) i st1 :
  at_ bits clock_now when h st = (Some i, st1) ->
  timers st1 !!! i =
    {| handler := h; start := reading bits clock_now st;
       expires := sub bits when (reading bits clock_now st); repeat := 0 |} /\
  (0 <= when < reading bits clock_now st ->
   let late := modulus bits - (reading bits clock_now st - when) in
   expires (timers st1 !!! i) = late /\
   0 < late /\
   (2 * (reading bits clock_now st - when) <= modulus bits ->
    modulus bits <= 2 * late) /\
   (modulus bits < 2 * (reading bits clock_now st - when) ->
    2 * late < modulus bits) /\
   forall c st2 e,
     h = Some c ->
     timers st2 !!! i = timers st1 !!! i ->
     0 <= e < modulus bits ->
     reading bits clock_now st2 = wrap bits (reading bits clock_now st + e) ->
     (e < late ->
      tick_slot bits clock_now invoke impl st2 i =
      {| timers := timers st2; world := (now bits clock_now (world st2)).2;
         fired := fired st2 |}) /\
     (late <= e ->
      let r := invoke c (timers st2, (now bits clock_now (world st2)).2) in
      tick_slot bits clock_now invoke impl st2 i =
      {| timers := apply_result impl i (reading bits clock_now st2) r.1 r.2.1;
         world := r.2.2;
         fired := fired st2 ++ [(i, c)] |})).
Proof.
  intros Hs%at_slot. split; [done|].
  intros Hw late. pose proof (reading_range st) as Hr.
  assert (Hlate : sub bits when (reading bits clock_now st) = late).
  { apply sub_underflow; lia. }
  split; [by rewrite Hs|]. split; [subst late; lia|].
  split; [subst late; lia|]. split; [subst late; lia|].
  intros c st2 e -> Hslot He Hread. rewrite Hs, Hlate in Hslot.
  assert (Hel : elapsed bits clock_now st2 i = e).
  { unfold elapsed. rewrite Hslot, Hread. simpl. by apply sub_elapsed. }
  destruct (tick_slot_by_elapsed bits clock_now invoke impl st2 i c e)
    as [Hrun Hskip]; [by rewrite Hslot | done |].
  rewrite Hslot in Hrun, Hskip. simpl in Hrun, Hskip.
  split; [exact Hskip | exact Hrun].
Qed.

End Elapsed.

(** C7, as stated, fails: [at(0, h)] called when the 32-bit clock reads
    2^32 - 1, so that the time given is behind the reading by the whole
    range less one, stores the duration 1, and the handler is run at the
    next reading, one unit later. *)
Lemma at_far_behind_fires_one_unit_later :
  timers (at_ 32 Scenario.script_clock 0 (Some Scenario.completes)
            (Scenario.single cleared [4294967295; 0])).2 =
    [# {| handler := Some Scenario.completes; start := 4294967295;
          expires := 1; repeat := 0 |}] /\
  tick_slot 32 Scenario.script_clock Scenario.report Cpp17
    (at_ 32 Scenario.script_clock 0 (Some Scenario.completes)
       (Scenario.single cleared [4294967295; 0])).2 0%fin =
    {| timers := [# cleared]; world := [];
       fired := [(0%fin, Scenario.completes)] |}.
Proof. vm_compute. done. Qed.

(** C4. [now_and_every] passes the clock reading as the duration of the
    first period: scheduled when the clock reads 1000, the timer is stored
    with [expires = 1000], and the tick that follows at the same reading
    calls no handler and reports 1000 units to wait. *)
Theorem now_and_every_waits_for_the_clock_value :
  timers (now_and_every 32 Scenario.script_clock 50 (Some Scenario.repeats)
            Scenario.idle_at_1000).2 =
    [# {| handler := Some Scenario.repeats; start := 1000; expires := 1000;
          repeat := 50 |}] /\
  tick 32 Scenario.script_clock Scenario.report Cpp17
    (now_and_every 32 Scenario.script_clock 50 (Some Scenario.repeats)
       Scenario.idle_at_1000).2 =
    (1000,
     {| timers := [# {| handler := Some Scenario.repeats; start := 1000;
                        expires := 1000; repeat := 50 |}];
        world := []; fired := [] |}) /\
  fired (tick 32 Scenario.script_clock Scenario.report Legacy
           (now_and_every 32 Scenario.script_clock 50
              (Some Scenario.repeats) Scenario.idle_at_1000).2).2 = [].
Proof. vm_compute. done. Qed.

(** ** Handles: [cancel] and [reschedule_in] / [reschedule_at] *)

Section Handles.
Variable bits : positive.
Context {max_timers : nat} {Callable W : Type}.
Variable clock_now : W -> Z * W.
Variable invoke :
  Callable -> @Pool max_timers Callable * W ->
  HandlerResult * (@Pool max_timers Callable * W).
Variable impl : Impl.
Implicit Types st : @State max_timers Callable W.
Implicit Types ts : @Pool max_timers Callable.
Implicit Types i j : fin max_timers.
Implicit Types handle : @TimerHandle max_timers.

Lemma is_free_handler (timer : @Timer Callable) :
  is_free timer = true <-> handler timer = None.
Proof. unfold is_free. by destruct (handler timer). Qed.

Lemma slot_insert_cleared i ts :
  handler (vinsert i cleared ts !!! i) = None.
Proof. unfold Pool in *. by rewrite vlookup_insert. Qed.

Lemma cancel_stale st i :
  handler (timers st !!! i) = None -> cancel (Some i) st = (Some i, st).
Proof. intros Hh%is_free_handler. unfold cancel. by rewrite Hh. Qed.

Lemma cancel_armed st i c :
  handler (timers st !!! i) = Some c ->
  cancel (Some i) st =
  (Some i, {| timers := vinsert i cleared (timers st); world := world st;
              fired := fired st |}).
Proof.
  intros Hh. unfold cancel, is_free. by rewrite Hh.
Qed.

Lemma cancel_idempotent st handle :
  cancel handle (cancel handle st).2 = cancel handle st.
Proof.
  destruct handle as [i|]; [|done].
  destruct (handler (timers st !!! i)) as [c|] eqn:Hh.
  - rewrite (cancel_armed _ _ _ Hh). cbn [snd].
    rewrite cancel_stale; [done|]. cbn [timers]. apply slot_insert_cleared.
  - rewrite (cancel_stale _ _ Hh). cbn [snd]. by apply cancel_stale.
Qed.

(** C6. [cancel] changes nothing for the empty handle and for a handle to
    a free slot.  For a handle to an armed slot it clears the handler and
    zeroes [start], [expires] and [repeat] of that slot and of no other,
    before it returns; the dispatch loop then passes the slot without any
    effect, and a second [cancel] through the same handle changes nothing.
    In every case a repeated [cancel] is the same as one, and a slot that
    is free when a pass reaches it has no handler called in that pass. *)
Theorem cancel_is_safe_and_idempotent :
  (forall st, cancel None st = (None, st)) /\
  (forall st i,
     handler (timers st !!! i) = None -> cancel (Some i) st = (Some i, st)) /\
  (forall st i c,
     handler (timers st !!! i) = Some c ->
     let st' := (cancel (Some i) st).2 in
     timers st' !!! i =
       {| handler := None; start := 0; expires := 0; repeat := 0 |} /\
     (forall j, j <> i -> timers st' !!! j = timers st !!! j) /\
     world st' = world st /\
     fired st' = fired st /\
     tick_slot bits clock_now invoke impl st' i = st' /\
     cancel (Some i) st' = (Some i, st')) /\
  (forall st handle, cancel handle (cancel handle st).2 = cancel handle st) /\
  (forall st i,
     handler (timers (reach bits clock_now invoke impl st i) !!! i) = None ->
     fired_by i (fired (dispatch bits clock_now invoke impl st)) =
     fired_by i (fired st)).
Proof.
  split; [done|]. split; [apply cancel_stale|]. split; [|split].
  - intros st i c Hh st'. subst st'. rewrite (cancel_armed _ _ _ Hh).
    cbn [snd timers world fired].
    assert (Hfree : handler (vinsert i cleared (timers st) !!! i) = None)
      by apply slot_insert_cleared.
    split; [apply vlookup_insert|]. split.
    { intros j Hj. by apply vlookup_insert_ne. }
    split; [done|]. split; [done|]. split.
    + by apply tick_slot_free.
    + by apply cancel_stale.
  - apply cancel_idempotent.
  - intros st i Hfree. rewrite dispatch_fired_by, Hfree. apply app_nil_r.
Qed.

Lemma reschedule_in_eq handle d st :
  reschedule_in bits clock_now handle d st =
  with_pool st (now bits clock_now (world st)).2
    (reschedule_timer handle (reading bits clock_now st) d (timers st)).
Proof.
  unfold reschedule_in, reading. by destruct (now bits clock_now (world st)).
Qed.

Lemma reschedule_at_eq handle w st :
  reschedule_at bits clock_now handle w st =
  with_pool st (now bits clock_now (world st)).2
    (reschedule_timer handle (reading bits clock_now st)
       (sub bits w (reading bits clock_now st)) (timers st)).
Proof.
  unfold reschedule_at, reading. by destruct (now bits clock_now (world st)).
Qed.

Lemma reschedule_timer_handle handle s e ts :
  (reschedule_timer handle s e ts).1 = handle.
Proof.
  unfold reschedule_timer. destruct handle as [i|]; [|done].
  by destruct (is_free (ts !!! i)).
Qed.

Lemma reschedule_timer_stale handle s e ts :
  (handle = None \/
   exists i, handle = Some i /\ handler (ts !!! i) = None) ->
  (reschedule_timer handle s e ts).2 = ts.
Proof.
  intros [->|(i & -> & Hh%is_free_handler)]; [done|].
  unfold reschedule_timer. by rewrite Hh.
Qed.

Lemma reschedule_timer_live i c s e ts :
  handler (ts !!! i) = Some c ->
  (reschedule_timer (Some i) s e ts).2 =
  vinsert i {| handler := Some c; start := s; expires := e;
               repeat := repeat (ts !!! i) |} ts.
Proof.
  intros Hh. unfold reschedule_timer, is_free. by rewrite Hh.
Qed.

(** C8. [reschedule_in] and [reschedule_at] return the handle they were
    given.  On a handle to an armed slot they set [start] to the reading
    and [expires] to the delay (for [reschedule_at]: to the unsigned
    difference between the time given and the reading), keep the handler
    and [repeat] of the slot, and leave every other slot as it was.  On
    the empty handle and on a handle to a free slot they change no
    slot. *)
Theorem reschedule_changes_start_and_expires_only st handle (d : Timepoint) :
  let t := reading bits clock_now st in
  let r_in := reschedule_in bits clock_now handle d st in
  let r_at := reschedule_at bits clock_now handle d st in
  r_in.1 = handle /\ r_at.1 = handle /\
  (forall i c,
     handle = Some i -> handler (timers st !!! i) = Some c ->
     timers r_in.2 !!! i =
       {| handler := Some c; start := t; expires := d;
          repeat := repeat (timers st !!! i) |} /\
     timers r_at.2 !!! i =
       {| handler := Some c; start := t; expires := sub bits d t;
          repeat := repeat (timers st !!! i) |} /\
     (forall j, j <> i ->
        timers r_in.2 !!! j = timers st !!! j /\
        timers r_at.2 !!! j = timers st !!! j)) /\
  ((handle = None \/
    exists i, handle = Some i /\ handler (timers st !!! i) = None) ->
   timers r_in.2 = timers st /\ timers r_at.2 = timers st).
Proof.
  intros t r_in r_at. subst t r_in r_at.
  rewrite reschedule_in_eq, reschedule_at_eq. unfold with_pool. simpl.
  split; [apply reschedule_timer_handle|].
  split; [apply reschedule_timer_handle|]. split.
  - intros i c -> Hh. rewrite !(reschedule_timer_live _ _ _ _ _ Hh).
    split; [apply vlookup_insert|]. split; [apply vlookup_insert|].
    intros j Hj. split; by apply vlookup_insert_ne.
  - intros Hstale. by rewrite !reschedule_timer_stale.
Qed.

End Handles.

(** * The theorems at concrete inputs *)



(** C5: a one-slot set whose slot is armed refuses [in]; and after one
    request a second one is refused. *)
Lemma full_single_slot_refuses :
  refused (in_ 32 Scenario.script_clock 7 (Some Scenario.completes)
             Scenario.overdue_by_one) Scenario.overdue_by_one /\
  refused
    (schedule 32 Scenario.script_clock (ReqEvery 5 Scenario.repeats)
       (schedule_all 32 Scenario.script_clock [ReqIn 3 Scenario.completes]
          Scenario.idle_at_1000))
    (schedule_all 32 Scenario.script_clock [ReqIn 3 Scenario.completes]
       Scenario.idle_at_1000).
Proof.
  destruct (full_pool_refuses_scheduling 32 Scenario.script_clock
              (max_timers := 1) (Callable := HandlerResult))
    as [Hfull Hmany].
  split.
  - apply (Hfull Scenario.overdue_by_one).
    intros i. inv_fin i; [reflexivity|]. intros i. inv_fin i.
  - apply (Hmany Scenario.idle_at_1000 [ReqIn 3 Scenario.completes]).
    reflexivity.
Defined.

(** C6: cancelling the armed slot of a one-slot set clears it. *)
Lemma cancel_clears_the_slot :
  timers (cancel (Some 0%fin) Scenario.overdue_by_one).2 !!! 0%fin =
    {| handler := None; start := 0; expires := 0; repeat := 0 |} /\
  cancel (Some 0%fin) (cancel (Some 0%fin) Scenario.overdue_by_one).2 =
    (Some 0%fin, (cancel (Some 0%fin) Scenario.overdue_by_one).2).
Proof.
  destruct (cancel_is_safe_and_idempotent 32 (max_timers := 1)
              Scenario.script_clock Scenario.report Cpp17)
    as (_ & _ & Harmed & _).
  destruct (Harmed Scenario.overdue_by_one 0%fin Scenario.completes eq_refl)
    as (Hslot & _ & _ & _ & _ & Hagain).
  split; [exact Hslot | exact Hagain].
Defined.

(** C7: [at(400, h)] when the clock reads 1000 stores the duration
    2^32 - 600. *)
Lemma at_a_past_time_stores_a_long_duration :
  expires
    (timers (at_ 32 Scenario.script_clock 400 (Some Scenario.completes)
               Scenario.idle_at_1000).2 !!! 0%fin) = 4294966696.
Proof.
  destruct (at_stores_wrapped_difference 32 Scenario.script_clock
              Scenario.report Cpp17 Scenario.idle_at_1000 400
              (Some Scenario.completes) 0%fin
              (at_ 32 Scenario.script_clock 400 (Some Scenario.completes)
                 Scenario.idle_at_1000).2 eq_refl) as [_ Hpast].
  destruct Hpast as (Hexp & _).
  - change (reading 32 Scenario.script_clock Scenario.idle_at_1000)
      with 1000. lia.
  - exact Hexp.
Defined.

(** C8: rescheduling the armed slot of a one-slot set by 5 units. *)
Lemma reschedule_in_keeps_handler_and_repeat :
  timers (reschedule_in 32 Scenario.script_clock (Some 0%fin) 5
            Scenario.repeat_without_interval).2 !!! 0%fin =
    {| handler := Some Scenario.repeats; start := 10; expires := 5;
       repeat := 0 |}.
Proof.
  destruct (reschedule_changes_start_and_expires_only 32
              Scenario.script_clock Scenario.repeat_without_interval
              (Some 0%fin) 5) as (_ & _ & Hlive & _).
  destruct (Hlive 0%fin Scenario.repeats eq_refl eq_refl) as (Hin & _).
  exact Hin.
Defined.


(** C10: the minimum over the armed slots is the largest [Timepoint] and
    [tick] returns 0. *)
Lemma tick_returns_zero_with_an_armed_slot :
  (tick 32 Scenario.script_clock Scenario.report Legacy
     Scenario.overdue_by_one).1 = 0.
Proof.
  apply (proj2 zero_does_not_mean_no_armed_timer 32%positive 1%nat
           HandlerResult
           Scenario.World Scenario.script_clock Scenario.report Legacy
           Scenario.overdue_by_one).
  reflexivity.
Defined.

(** * Further properties of the code *)

(** ** Allocation of slots *)

Section Allocation.
Context {Callable : Type}.

Lemma find_free_first_fit {n} (ts : vec (@Timer Callable) n) i :
  find_free ts = Some i <->
  handler (ts !!! i) = None /\
  forall j, (fin_to_nat j < fin_to_nat i)%nat -> is_armed (ts !!! j) = true.
Proof.
  induction ts as [|t n ts IH]; [inversion i|].
  simpl find_free. destruct (is_free t) eqn:Hf.
  - split.
    + intros [= <-]. split; [by apply is_free_handler|].
      intros j Hj. simpl in Hj. lia.
    + intros [Hi Hlow]. revert Hi Hlow. inv_fin i; [done|].
      intros i _ Hlow. specialize (Hlow 0%fin). simpl in Hlow.
      unfold is_armed in Hlow. rewrite Hf in Hlow.
      discriminate Hlow. lia.
  - rewrite fmap_Some. split.
    + intros (i' & Hi' & ->). apply IH in Hi' as [Hfree Hlow].
      split; [done|]. intros j. inv_fin j.
      * intros _. simpl. unfold is_armed. by rewrite Hf.
      * intros j Hj. apply Hlow. simpl in Hj. lia.
    + intros [Hi Hlow]. revert Hi Hlow. inv_fin i.
      * intros Hi _. simpl in Hi. apply is_free_handler in Hi. congruence.
      * intros i Hi Hlow. exists i. split; [|done]. apply IH.
        split; [done|]. intros j Hj. apply (Hlow (FS j)). simpl. lia.
Qed.

End Allocation.

Section AllocationOfSlots.
Variable bits : positive.
Context {max_timers : nat} {Callable W : Type}.
Variable clock_now : W -> Z * W.
Implicit Types st : @State max_timers Callable W.
Implicit Types ts : @Pool max_timers Callable.
Implicit Types i j : fin max_timers.
Implicit Types h : @Handler Callable.

(** X1. [next_timer_slot] is a first-fit scan: it returns the slot [i]
    exactly when [i] has no handler and every slot of lower index has
    one, and it returns nothing exactly when every slot has a handler. *)
Theorem next_timer_slot_is_first_fit ts :
  (forall i,
     next_timer_slot ts = Some i <->
     handler (ts !!! i) = None /\
     forall j, (fin_to_nat j < fin_to_nat i)%nat ->
               is_armed (ts !!! j) = true) /\
  (next_timer_slot ts = None <-> forall i, is_armed (ts !!! i) = true).
Proof.
  split; [intros i; apply find_free_first_fit | apply find_free_None].
Qed.

Lemma add_timer_frame ts s e h r hd ts' :
  add_timer s e h r ts = (hd, ts') ->
  (forall i, hd = Some i ->
     handler (ts !!! i) = None /\
     ts' !!! i = {| handler := h; start := s; expires := e; repeat := r |}) /\
  (forall j, hd <> Some j -> ts' !!! j = ts !!! j).
Proof.
  unfold add_timer, next_timer_slot.
  destruct (find_free ts) as [k|] eqn:Hk; intros [= <- <-].
  - split.
    + intros i [= <-]. split; [by apply find_free_Some|].
      apply vlookup_insert.
    + intros j Hj. apply vlookup_insert_ne. congruence.
  - split; [discriminate | done].
Qed.

Lemma add_timer_armed_slot ts s e h r i :
  is_armed (ts !!! i) = true ->
  (add_timer s e h r ts).2 !!! i = ts !!! i.
Proof.
  intros Hi. destruct (add_timer s e h r ts) as [hd ts'] eqn:Ha.
  apply add_timer_frame in Ha as [Hnew Hold]. simpl.
  apply Hold. intros ->. destruct (Hnew i eq_refl) as [Hfree _].
  unfold is_armed, is_free in Hi. by rewrite Hfree in Hi.
Qed.

(** X2. The four scheduling calls never touch a slot that holds a timer,
    whether they succeed or not, and they leave the log of handler calls
    alone. *)
Theorem scheduling_never_touches_an_armed_timer st (d : Timepoint) h i :
  is_armed (timers st !!! i) = true ->
  (timers (in_ bits clock_now d h st).2 !!! i = timers st !!! i /\
   fired (in_ bits clock_now d h st).2 = fired st) /\
  (timers (at_ bits clock_now d h st).2 !!! i = timers st !!! i /\
   fired (at_ bits clock_now d h st).2 = fired st) /\
  (timers (every bits clock_now d h st).2 !!! i = timers st !!! i /\
   fired (every bits clock_now d h st).2 = fired st) /\
  (timers (now_and_every bits clock_now d h st).2 !!! i = timers st !!! i /\
   fired (now_and_every bits clock_now d h st).2 = fired st).
Proof.
  intros Hi. rewrite in_eq, at_eq, every_eq, now_and_every_eq.
  unfold with_pool. simpl.
  repeat split; by apply add_timer_armed_slot.
Qed.

Lemma schedule_is_add_timer (r : Request) st :
  exists s e (c : Callable) rp,
    schedule bits clock_now r st =
    with_pool st (now bits clock_now (world st)).2
      (add_timer s e (Some c) rp (timers st)).
Proof.
  destruct r as [d c|w c|d c|d c]; simpl;
    rewrite ?in_eq, ?at_eq, ?every_eq, ?now_and_every_eq; eauto 6.
Qed.

Lemma add_timer_filled k ts s e (c : Callable) rp :
  filled k ts ->
  filled (S k) (add_timer s e (Some c) rp ts).2 /\
  (forall i, fin_to_nat i = k ->
     (add_timer s e (Some c) rp ts).1 = Some i) /\
  ((max_timers <= k)%nat -> (add_timer s e (Some c) rp ts).1 = None).
Proof.
  intros Hk.
  assert (Hfull : (max_timers <= k)%nat ->
                  add_timer s e (Some c) rp ts = (None, ts)).
  { intros Hle. apply add_timer_full. intros i. apply Hk.
    pose proof (fin_to_nat_lt i). lia. }
  assert (Hat : forall i, fin_to_nat i = k ->
    add_timer s e (Some c) rp ts =
    (Some i, vinsert i {| handler := Some c; start := s; expires := e;
                          repeat := rp |} ts)).
  { intros i Hik. unfold add_timer, next_timer_slot.
    assert (find_free ts = Some i) as ->; [|done].
    apply find_free_first_fit. split.
    - apply Hk. lia.
    - intros j Hj. apply Hk. lia. }
  split; [|split].
  - destruct (decide (k < max_timers)%nat) as [Hlt|Hge].
    + set (i := nat_to_fin Hlt).
      assert (Hik : fin_to_nat i = k) by apply fin_to_nat_to_fin.
      rewrite (Hat i Hik). simpl. intros j. split.
      * intros Hj. destruct (decide (i = j)) as [<-|Hne].
        -- unfold Pool in *. by rewrite vlookup_insert.
        -- unfold Pool in *. rewrite vlookup_insert_ne by done.
           apply Hk. assert (fin_to_nat j <> fin_to_nat i)
             by (intros E; by apply fin_to_nat_inj in E).
           lia.
      * intros Hj. unfold Pool in *. rewrite vlookup_insert_ne.
        -- apply Hk. lia.
        -- intros ->. lia.
    + rewrite Hfull by lia. simpl. intros j. split.
      * intros _. apply Hk. pose proof (fin_to_nat_lt j). lia.
      * intros Hj. pose proof (fin_to_nat_lt j). lia.
  - intros i Hik. by rewrite (Hat i Hik).
  - intros Hle. by rewrite Hfull.
Qed.

Lemma schedule_all_filled k (rs : list Request) st :
  filled k (timers st) ->
  filled (k + length rs) (timers (schedule_all bits clock_now rs st)).
Proof.
  revert k st. induction rs as [|r rs IH]; intros k st Hk.
  - simpl. by rewrite Nat.add_0_r.
  - unfold schedule_all in *. simpl.
    replace (k + S (length rs))%nat with (S k + length rs)%nat by lia.
    apply IH.
    destruct (schedule_is_add_timer r st) as (s & e & c & rp & ->).
    unfold with_pool. simpl. by apply add_timer_filled.
Qed.

(** X3. Starting from a set with no timer, scheduling calls with
    non-empty handlers are given the slots in index order: the call
    that follows [k] earlier ones gets the slot [k] while [k] is below the
    capacity, and the empty handle from then on.  In particular the
    handles handed out are pairwise distinct. *)
Theorem slots_are_handed_out_in_index_order st (rs : list Request) r :
  (forall i, handler (timers st !!! i) = None) ->
  ((length rs < max_timers)%nat ->
   exists i,
     fin_to_nat i = length rs /\
     (schedule bits clock_now r (schedule_all bits clock_now rs st)).1 =
     Some i) /\
  ((max_timers <= length rs)%nat ->
   (schedule bits clock_now r (schedule_all bits clock_now rs st)).1 = None).
Proof.
  intros Hfree.
  assert (H0 : filled 0 (timers st)).
  { intros j. split; [lia | intros _; apply Hfree]. }
  pose proof (schedule_all_filled 0 rs st H0) as Hk. simpl in Hk.
  destruct (schedule_is_add_timer r (schedule_all bits clock_now rs st))
    as (s & e & c & rp & ->).
  unfold with_pool. simpl.
  destruct (add_timer_filled _ _ s e c rp Hk) as (_ & Hat & Hfull).
  split; [|done]. intros Hlt. exists (nat_to_fin Hlt).
  split; [apply fin_to_nat_to_fin|]. apply Hat, fin_to_nat_to_fin.
Qed.

End AllocationOfSlots.

(** ** Handles and the reuse of slots *)

Section SlotReuse.
Variable bits : positive.
Context {max_timers : nat} {Callable W : Type}.
Variable clock_now : W -> Z * W.
Implicit Types st : @State max_timers Callable W.
Implicit Types ts : @Pool max_timers Callable.
Implicit Types i j : fin max_timers.

Lemma some_slot_is_free ts j :
  handler (ts !!! j) = None -> exists i, next_timer_slot ts = Some i.
Proof.
  intros Hj. unfold next_timer_slot.
  destruct (find_free ts) as [i|] eqn:Hi; [by exists i|].
  pose proof (proj1 (find_free_None ts) Hi j) as Ha.
  unfold is_armed, is_free in Ha. unfold Pool in *. by rewrite Hj in Ha.
Qed.

Lemma next_timer_slot_insert_empty ts i timer :
  next_timer_slot ts = Some i ->
  handler timer = None ->
  next_timer_slot (vinsert i timer ts) = Some i.
Proof.
  intros [_ Hlow]%find_free_first_fit Ht.
  apply find_free_first_fit. unfold Pool in *. split.
  - by rewrite vlookup_insert.
  - intros j Hj. rewrite vlookup_insert_ne; [by apply Hlow|].
    intros ->. lia.
Qed.

Lemma add_timer_empty_handler ts s e r i :
  next_timer_slot ts = Some i ->
  add_timer s e None r ts =
  (Some i,
   vinsert i {| handler := None; start := s; expires := e; repeat := r |} ts).
Proof. intros Hi. unfold add_timer. by rewrite Hi. Qed.

(** Scheduling calls and [cancel] on a set whose first free slot is [i]
    and has no handler. *)
Lemma first_free_slot_is_handed_out st1 i :
  next_timer_slot (timers st1) = Some i ->
  (forall r, (schedule bits clock_now r st1).1 = Some i) /\
  (forall (d' : Timepoint) (h : Handler),
     (every bits clock_now d' h st1).1 = Some i) /\
  cancel (Some i) st1 = (Some i, st1).
Proof.
  intros Hnext.
  assert (Hadd : forall s e (h : Handler) rp,
            (add_timer s e h rp (timers st1)).1 = Some i).
  { intros s e h rp. unfold add_timer. by rewrite Hnext. }
  split; [|split].
  - intros r.
    destruct (schedule_is_add_timer bits clock_now r st1)
      as (s & e & c & rp & ->).
    apply Hadd.
  - intros d' h. rewrite every_eq. apply Hadd.
  - apply cancel_stale. by apply find_free_Some.
Qed.

(** X4. On a set with a free slot, a scheduling call given an empty
    handler returns a non-empty handle, to the first free slot, and
    writes the start, the duration and the repeat interval into it, but
    the slot stays free: after any of the four calls the next scheduling
    call returns the same slot, and [cancel] through the handle changes
    nothing. *)
Theorem empty_handler_leaves_the_slot_free st (d : Timepoint) j :
  handler (timers st !!! j) = None ->
  exists i,
    next_timer_slot (timers st) = Some i /\
    ((in_ bits clock_now d None st).1 = Some i /\
     timers (in_ bits clock_now d None st).2 !!! i =
       {| handler := None; start := reading bits clock_now st;
          expires := d; repeat := 0 |}) /\
    ((at_ bits clock_now d None st).1 = Some i /\
     timers (at_ bits clock_now d None st).2 !!! i =
       {| handler := None; start := reading bits clock_now st;
          expires := sub bits d (reading bits clock_now st);
          repeat := 0 |}) /\
    ((every bits clock_now d None st).1 = Some i /\
     timers (every bits clock_now d None st).2 !!! i =
       {| handler := None; start := reading bits clock_now st;
          expires := d; repeat := d |}) /\
    ((now_and_every bits clock_now d None st).1 = Some i /\
     timers (now_and_every bits clock_now d None st).2 !!! i =
       {| handler := None; start := reading bits clock_now st;
          expires := reading bits clock_now st; repeat := d |}) /\
    forall st1,
      st1 = (in_ bits clock_now d None st).2 \/
      st1 = (at_ bits clock_now d None st).2 \/
      st1 = (every bits clock_now d None st).2 \/
      st1 = (now_and_every bits clock_now d None st).2 ->
      (forall r, (schedule bits clock_now r st1).1 = Some i) /\
      (forall (d' : Timepoint) (h : Handler),
         (every bits clock_now d' h st1).1 = Some i) /\
      cancel (Some i) st1 = (Some i, st1).
Proof.
  intros Hj. destruct (some_slot_is_free _ _ Hj) as [i Hi].
  exists i. split; [done|].
  rewrite in_eq, at_eq, every_eq, now_and_every_eq.
  unfold with_pool, reading.
  rewrite !(add_timer_empty_handler _ _ _ _ _ Hi). cbn [fst snd timers].
  unfold Pool in *. rewrite !vlookup_insert.
  split; [done|]. split; [done|]. split; [done|]. split; [done|].
  intros st1 Hst1. apply first_free_slot_is_handed_out.
  destruct Hst1 as [-> | [-> | [-> | ->]]]; cbn [timers];
    by apply next_timer_slot_insert_empty.
Qed.

Lemma find_free_after_cancel ts i :
  (forall j, (fin_to_nat j < fin_to_nat i)%nat ->
             is_armed (ts !!! j) = true) ->
  next_timer_slot (vinsert i cleared ts) = Some i.
Proof.
  intros Hlow. apply find_free_first_fit. unfold Pool in *. split.
  - by rewrite vlookup_insert.
  - intros j Hj. rewrite vlookup_insert_ne; [by apply Hlow|].
    intros ->. lia.
Qed.

(** X5. A cancelled slot is reused: when every slot of lower index is
    armed, the scheduling call that follows [cancel] of the slot [i]
    returns [i] again.  The handle that was cancelled then refers to the
    new timer, and a [cancel] through it frees the new timer. *)
Theorem cancelled_slot_is_reused st i c r :
  handler (timers st !!! i) = Some c ->
  (forall j, (fin_to_nat j < fin_to_nat i)%nat ->
             is_armed (timers st !!! j) = true) ->
  let st1 := (cancel (Some i) st).2 in
  let st2 := (schedule bits clock_now r st1).2 in
  (schedule bits clock_now r st1).1 = Some i /\
  is_armed (timers st2 !!! i) = true /\
  timers (cancel (Some i) st2).2 !!! i = cleared.
Proof.
  intros Hc Hlow st1 st2. subst st2 st1.
  rewrite (cancel_armed _ _ _ Hc). cbn [snd].
  destruct (schedule_is_add_timer bits clock_now r
              {| timers := vinsert i cleared (timers st); world := world st;
                 fired := fired st |}) as (s & e & c' & rp & ->).
  unfold with_pool. cbn [timers world fired fst snd].
  unfold add_timer. rewrite (find_free_after_cancel _ _ Hlow).
  cbn [fst snd]. split; [done|].
  assert (Hnew : handler
            (vinsert i {| handler := Some c'; start := s; expires := e;
                          repeat := rp |}
               (vinsert i cleared (timers st)) !!! i) = Some c').
  { unfold Pool in *. by rewrite vlookup_insert. }
  split.
  - unfold is_armed, is_free. unfold Pool in *. by rewrite vlookup_insert.
  - erewrite cancel_armed by exact Hnew. cbn [snd timers].
    apply vlookup_insert.
Qed.

(** X6. Scheduling and then cancelling through the returned handle gives
    back the pool as it was, provided the free slots held the values
    [remove] writes. *)
Theorem cancel_undoes_scheduling st r i st1 :
  neutral (timers st) ->
  schedule bits clock_now r st = (Some i, st1) ->
  timers (cancel (Some i) st1).2 = timers st /\
  fired (cancel (Some i) st1).2 = fired st.
Proof.
  intros Hneutral.
  destruct (schedule_is_add_timer bits clock_now r st)
    as (s & e & c & rp & ->).
  unfold with_pool.
  destruct (add_timer _ _ _ _ _) as [hd ts'] eqn:Ha. cbn [fst snd].
  intros [= -> <-].
  apply add_timer_frame in Ha as [Hnew Hold].
  destruct (Hnew i eq_refl) as [Hfree Hi].
  erewrite cancel_armed by exact (f_equal handler Hi).
  cbn [snd timers fired].
  split; [|done]. apply vec_eq. intros j. unfold Pool in *.
  destruct (decide (i = j)) as [<-|Hne].
  - rewrite vlookup_insert. symmetry. by apply Hneutral.
  - rewrite vlookup_insert_ne by done. apply Hold. congruence.
Qed.

End SlotReuse.

(** ** More on [tick] *)

Section TickFacts.
Variable bits : positive.
Context {max_timers : nat} {Callable W : Type}.
Variable clock_now : W -> Z * W.
Variable invoke :
  Callable -> @Pool max_timers Callable * W ->
  HandlerResult * (@Pool max_timers Callable * W).
Variable impl : Impl.
Variable clock_delay : Timepoint -> W -> W.
Implicit Types st : @State max_timers Callable W.
Implicit Types ts : @Pool max_timers Callable.
Implicit Types i j : fin max_timers.

Lemma tick_and_delay_eq st :
  tick_and_delay bits clock_now invoke impl clock_delay st =
  {| timers := timers (tick bits clock_now invoke impl st).2;
     world := clock_delay (tick bits clock_now invoke impl st).1
                (world (tick bits clock_now invoke impl st).2);
     fired := fired (tick bits clock_now invoke impl st).2 |}.
Proof.
  unfold tick_and_delay. by destruct (tick bits clock_now invoke impl st).
Qed.

Lemma foldl_tick_slot_idle st (l : list (fin max_timers)) :
  (forall i, handler (timers st !!! i) = None) ->
  foldl (tick_slot bits clock_now invoke impl) st l = st.
Proof.
  intros Hfree. induction l as [|i l IH]; [done|].
  simpl. by rewrite tick_slot_free.
Qed.

Lemma foldl_lower_free t (l : list (@Timer Callable)) acc :
  Forall (λ timer, handler timer = None) l ->
  foldl (lower bits t) acc l = acc.
Proof.
  intros Hl. revert acc. induction Hl as [|timer l Ht _ IH]; intros acc.
  - done.
  - simpl. unfold lower at 2. by rewrite Ht.
Qed.

(** X7. On a set with no timer, [tick] reads the clock once, calls no
    handler, changes no slot and returns 0; [tick_and_delay] then asks
    the clock for a delay of 0. *)
Theorem tick_of_a_set_without_timers st :
  (forall i, handler (timers st !!! i) = None) ->
  tick bits clock_now invoke impl st =
    (0, {| timers := timers st; world := (now bits clock_now (world st)).2;
           fired := fired st |}) /\
  tick_and_delay bits clock_now invoke impl clock_delay st =
    {| timers := timers st;
       world := clock_delay 0 (now bits clock_now (world st)).2;
       fired := fired st |}.
Proof.
  intros Hfree.
  assert (Ht : tick bits clock_now invoke impl st =
    (0, {| timers := timers st; world := (now bits clock_now (world st)).2;
           fired := fired st |})).
  { rewrite tick_eq. unfold dispatch.
    rewrite foldl_tick_slot_idle by done. simpl.
    rewrite foldl_lower_free; [by rewrite Z.eqb_refl|].
    by apply Forall_vlookup. }
  split; [done|]. by rewrite tick_and_delay_eq, Ht.
Qed.

Lemma armed_remaining_slot t ts i :
  is_armed (ts !!! i) = true ->
  remaining bits t (ts !!! i) ∈ armed_remaining bits t ts.
Proof.
  intros Hi. unfold armed_remaining. apply list_elem_of_fmap_2.
  apply list_elem_of_filter. split; [done|].
  apply elem_of_vlookup. by exists i.
Qed.

Lemma armed_remaining_elem t ts x :
  x ∈ armed_remaining bits t ts ->
  exists i c, handler (ts !!! i) = Some c /\ remaining bits t (ts !!! i) = x.
Proof.
  unfold armed_remaining.
  intros (timer & -> & [Ha Hin]%list_elem_of_filter)%list_elem_of_fmap.
  apply elem_of_vlookup in Hin as [i <-]. exists i.
  unfold is_armed, is_free in Ha. unfold Pool in *.
  destruct (handler (ts !!! i)) as [c|]; [|discriminate]. by exists c.
Qed.

Lemma timers_tick st :
  timers (tick bits clock_now invoke impl st).2 =
  timers (dispatch bits clock_now invoke impl st).
Proof. by rewrite tick_eq. Qed.

(** X8. The value [tick] returns is never the largest [Timepoint] and
    never exceeds the remaining time of a slot that is armed when [tick]
    returns; it is the delay [tick_and_delay] asks the clock for. *)
Theorem tick_value_bounds st :
  let r := (tick bits clock_now invoke impl st).1 in
  let t' := reading bits clock_now (dispatch bits clock_now invoke impl st) in
  0 <= r < Timepoint_max bits /\
  (forall i,
     is_armed (timers (tick bits clock_now invoke impl st).2 !!! i) = true ->
     r <= remaining bits t'
            (timers (tick bits clock_now invoke impl st).2 !!! i)) /\
  world (tick_and_delay bits clock_now invoke impl clock_delay st) =
    clock_delay r (world (tick bits clock_now invoke impl st).2).
Proof.
  intros r t'. subst r t'. rewrite timers_tick, tick_value. simpl.
  set (st1 := dispatch bits clock_now invoke impl st).
  set (t' := reading bits clock_now st1).
  set (m := minimum_remaining bits t' (timers st1)).
  pose proof (modulus_ge_2 bits) as HM.
  assert (Hm : 0 <= m <= Timepoint_max bits /\
               forall i, is_armed (timers st1 !!! i) = true ->
                         m <= remaining bits t' (timers st1 !!! i)).
  { destruct (armed_remaining bits t' (timers st1)) as [|x xs] eqn:Hl.
    - subst m. unfold minimum_remaining. rewrite Hl.
      unfold Timepoint_max. split; [lia|].
      intros i Hi%(armed_remaining_slot t'). rewrite Hl in Hi.
      by apply elem_of_nil in Hi.
    - destruct (minimum_remaining_is_least bits t' (timers st1))
        as [Hin Hleast]; [by rewrite Hl|].
      fold m in Hin, Hleast. split.
      + apply armed_remaining_elem in Hin as (i & c & _ & <-).
        apply remaining_range.
      + intros i Hi. by apply Hleast, armed_remaining_slot. }
  destruct Hm as [Hrange Hle]. split; [|split].
  - destruct (Z.eqb_spec m (Timepoint_max bits)); unfold Timepoint_max in *;
      lia.
  - intros i Hi. specialize (Hle i Hi).
    pose proof (remaining_range bits t' (timers st1 !!! i)).
    destruct (m =? Timepoint_max bits); lia.
  - rewrite tick_and_delay_eq. simpl. by rewrite tick_value.
Qed.

(** The remaining time of a slot is the time after which its elapsed
    time is its duration. *)
Lemma remaining_reaches_expires t (timer : @Timer Callable) :
  0 <= expires timer < modulus bits ->
  sub bits (wrap bits (t + remaining bits t timer)) (start timer) =
  expires timer.
Proof.
  intros He. unfold remaining, sub, wrap.
  rewrite Zminus_mod_idemp_l.
  replace (t + (expires timer - (t - start timer) mod modulus bits)
                 mod modulus bits - start timer)
    with ((t - start timer) +
          (expires timer - (t - start timer) mod modulus bits)
            mod modulus bits) by lia.
  rewrite Zplus_mod_idemp_r.
  rewrite <- Zplus_mod_idemp_l.
  replace ((t - start timer) mod modulus bits +
           (expires timer - (t - start timer) mod modulus bits))
    with (expires timer) by lia.
  by apply Z.mod_small.
Qed.

(** X9. A positive value returned by [tick] is the remaining time of a
    slot that is armed when [tick] returns, and that slot is due at the
    reading taken that many units after the final reading of [tick]: the
    iteration that reaches it then runs its handler, so that the state
    after it is the pool and the world the handler returned, with the
    outcome of its result applied. *)
Theorem waiting_the_returned_time_makes_a_timer_due st :
  0 < (tick bits clock_now invoke impl st).1 ->
  exists i c,
    handler (timers (tick bits clock_now invoke impl st).2 !!! i) = Some c /\
    remaining bits
      (reading bits clock_now (dispatch bits clock_now invoke impl st))
      (timers (tick bits clock_now invoke impl st).2 !!! i) =
    (tick bits clock_now invoke impl st).1 /\
    forall st2,
      timers st2 !!! i = timers (tick bits clock_now invoke impl st).2 !!! i ->
      0 <= expires (timers st2 !!! i) < modulus bits ->
      reading bits clock_now st2 =
        wrap bits
          (reading bits clock_now (dispatch bits clock_now invoke impl st) +
           (tick bits clock_now invoke impl st).1) ->
      let r := invoke c (timers st2, (now bits clock_now (world st2)).2) in
      tick_slot bits clock_now invoke impl st2 i =
      {| timers := apply_result impl i (reading bits clock_now st2) r.1 r.2.1;
         world := r.2.2;
         fired := fired st2 ++ [(i, c)] |}.
Proof.
  rewrite timers_tick, tick_value. simpl.
  set (st1 := dispatch bits clock_now invoke impl st).
  set (t' := reading bits clock_now st1).
  set (m := minimum_remaining bits t' (timers st1)).
  intros Hpos.
  destruct (Z.eqb_spec m (Timepoint_max bits)) as [|Hne]; [lia|].
  destruct (armed_remaining bits t' (timers st1)) as [|x xs] eqn:Hl.
  { subst m. unfold minimum_remaining in Hpos. rewrite Hl in Hpos. lia. }
  destruct (minimum_remaining_is_least bits t' (timers st1))
    as [Hin _]; [by rewrite Hl|].
  fold m in Hin. apply armed_remaining_elem in Hin as (i & c & Hc & Hr).
  exists i, c. split; [done|]. split; [done|].
  intros st2 Hslot He Hread.
  assert (Hdue : due bits clock_now st2 i = true).
  { apply due_spec. unfold elapsed. rewrite Hread, Hslot, <- Hr.
    rewrite remaining_reaches_expires; [lia|]. by rewrite <- Hslot. }
  rewrite (tick_slot_fire _ _ _ _ _ _ c); [done| |done].
  by rewrite Hslot.
Qed.

End TickFacts.

(** ** What a pass keeps *)

Section Keeping.
Variable bits : positive.
Context {max_timers : nat} {Callable W : Type}.
Variable clock_now : W -> Z * W.
Variable invoke :
  Callable -> @Pool max_timers Callable * W ->
  HandlerResult * (@Pool max_timers Callable * W).
Variable impl : Impl.
Variable clock_delay : Timepoint -> W -> W.
Implicit Types st : @State max_timers Callable W.
Implicit Types ts : @Pool max_timers Callable.
Implicit Types i j : fin max_timers.
Implicit Types a b : @Timer Callable.

Lemma kept_refl a : kept a a.
Proof. by left. Qed.

Lemma is_armed_cleared : is_armed (@cleared Callable) = false.
Proof. reflexivity. Qed.

Lemma is_armed_handler a b :
  handler b = handler a -> is_armed b = is_armed a.
Proof. intros Hh. unfold is_armed, is_free. by rewrite Hh. Qed.

Lemma kept_trans a b c : kept a b -> kept b c -> kept a c.
Proof.
  intros [->|[Ha Hab]] Hbc; [done|].
  destruct Hbc as [->|[Hb Hbc]]; [by right|].
  right. split; [done|].
  destruct Hab as [->|[Hh Hr]]; [by rewrite is_armed_cleared in Hb|].
  destruct Hbc as [->|[Hh' Hr']]; [by left|].
  right. split; congruence.
Qed.

(** The outcome of a handler clears the slot or rearms it. *)
Lemma apply_result_slot i t res ts :
  apply_result impl i t res ts !!! i = cleared \/
  exists e, apply_result impl i t res ts !!! i = rearm t e (ts !!! i).
Proof.
  unfold apply_result, remove. unfold Pool in *.
  destruct (status res), impl; try destruct (0 <? _);
    rewrite vlookup_insert; eauto.
Qed.

Lemma tick_slot_kept st i j :
  pool_preserving invoke ->
  kept (timers st !!! j)
       (timers (tick_slot bits clock_now invoke impl st i) !!! j).
Proof.
  intros Hpp.
  destruct (handler (timers st !!! i)) as [c|] eqn:Hh;
    [|rewrite tick_slot_free by done; apply kept_refl].
  destruct (due bits clock_now st i) eqn:Hd;
    [|rewrite (tick_slot_skip _ _ _ _ _ _ _ Hh Hd); apply kept_refl].
  rewrite (tick_slot_fire _ _ _ _ _ _ _ Hh Hd). cbn [timers].
  rewrite Hpp.
  destruct (decide (i = j)) as [<-|Hne].
  - right. split; [unfold is_armed, is_free; by rewrite Hh|].
    destruct (apply_result_slot i (reading bits clock_now st)
                (invoke c (timers st, (now bits clock_now (world st)).2)).1
                (timers st)) as [->|[e ->]]; [by left | by right].
  - rewrite apply_result_other by done. apply kept_refl.
Qed.

Lemma foldl_tick_slot_kept st (l : list (fin max_timers)) j :
  pool_preserving invoke ->
  kept (timers st !!! j)
       (timers (foldl (tick_slot bits clock_now invoke impl) st l) !!! j).
Proof.
  intros Hpp. revert st. induction l as [|i l IH]; intros st.
  - apply kept_refl.
  - simpl. eapply kept_trans; [by apply (tick_slot_kept st i j)|apply IH].
Qed.

Lemma tick_kept st j :
  pool_preserving invoke ->
  kept (timers st !!! j)
       (timers (tick bits clock_now invoke impl st).2 !!! j).
Proof.
  intros Hpp. rewrite timers_tick. by apply foldl_tick_slot_kept.
Qed.

(** X10. With handlers that do not call back into the timer set, [tick]
    leaves every free slot as it is, keeps the handler and the repeat
    interval of every timer that is armed afterwards, and leaves a slot
    that it frees with the values [remove] writes: [tick] never arms a
    slot and never changes which handler a timer calls. *)
Theorem tick_keeps_handlers_and_intervals st i :
  pool_preserving invoke ->
  let a := timers st !!! i in
  let b := timers (tick bits clock_now invoke impl st).2 !!! i in
  (handler a = None -> b = a) /\
  (is_armed b = true -> handler b = handler a /\ repeat b = repeat a) /\
  (is_armed a = true -> handler b = None -> b = cleared).
Proof.
  intros Hpp a b. pose proof (tick_kept st i Hpp) as Hk. fold a b in Hk.
  destruct Hk as [->|[Ha [->|[Hh Hr]]]].
  - split; [done|]. split; [done|]. intros Ha Hn.
    unfold is_armed, is_free in Ha. by rewrite Hn in Ha.
  - split; [|split; [|done]].
    + intros Hn. unfold is_armed, is_free in Ha. by rewrite Hn in Ha.
    + by rewrite is_armed_cleared.
  - split; [|split; [done|]].
    + intros Hn. unfold is_armed, is_free in Ha. by rewrite Hn in Ha.
    + intros _ Hn. unfold is_armed, is_free in Ha.
      rewrite <- Hh, Hn in Ha. discriminate.
Qed.

Lemma neutral_kept ts ts' :
  neutral ts -> (forall j, kept (ts !!! j) (ts' !!! j)) -> neutral ts'.
Proof.
  intros Hn Hk j Hfree.
  destruct (Hk j) as [E|[Ha [E|[Hh _]]]].
  - rewrite E in *. by apply Hn.
  - done.
  - unfold is_armed, is_free in Ha. rewrite <- Hh, Hfree in Ha. discriminate.
Qed.

(** X11. Free slots stay zeroed: if every free slot holds the values
    [remove] writes, this is still so after a scheduling call with a
    non-empty handler, after [cancel], after [reschedule_in] and
    [reschedule_at], and, with handlers that do not call back into the
    timer set, after [tick] and [tick_and_delay]. *)
Theorem free_slots_stay_zeroed st :
  neutral (timers st) ->
  (forall r, neutral (timers (schedule bits clock_now r st).2)) /\
  (forall handle, neutral (timers (cancel handle st).2)) /\
  (forall handle (d : Timepoint),
     neutral (timers (reschedule_in bits clock_now handle d st).2) /\
     neutral (timers (reschedule_at bits clock_now handle d st).2)) /\
  (pool_preserving invoke ->
   neutral (timers (tick bits clock_now invoke impl st).2) /\
   neutral (timers (tick_and_delay bits clock_now invoke impl
                      clock_delay st))).
Proof.
  intros Hn.
  assert (Hset : forall i c s e rp,
            neutral (vinsert i {| handler := Some c; start := s;
                                  expires := e; repeat := rp |} (timers st))).
  { intros i c s e rp j. unfold Pool in *.
    destruct (decide (i = j)) as [<-|Hne].
    - by rewrite vlookup_insert.
    - rewrite vlookup_insert_ne by done. apply Hn. }
  assert (Hres : forall handle s e,
            neutral (reschedule_timer handle s e (timers st)).2).
  { intros [i|] s e; [|done].
    destruct (handler (timers st !!! i)) as [c|] eqn:Hh.
    - rewrite (reschedule_timer_live _ _ _ _ _ Hh). apply Hset.
    - rewrite reschedule_timer_stale; [done|]. right. eauto. }
  split; [|split; [|split]].
  - intros r.
    destruct (schedule_is_add_timer bits clock_now r st)
      as (s & e & c & rp & ->).
    unfold with_pool, add_timer. cbn [snd timers].
    destruct (next_timer_slot (timers st)); [apply Hset | done].
  - intros [i|]; [|done].
    destruct (handler (timers st !!! i)) as [c|] eqn:Hh.
    + rewrite (cancel_armed _ _ _ Hh). cbn [snd timers].
      intros j. unfold Pool in *. destruct (decide (i = j)) as [<-|Hne].
      * by rewrite vlookup_insert.
      * rewrite vlookup_insert_ne by done. apply Hn.
    + by rewrite cancel_stale.
  - intros handle d. rewrite reschedule_in_eq, reschedule_at_eq.
    unfold with_pool. cbn [snd timers]. split; apply Hres.
  - intros Hpp.
    assert (Ht : neutral (timers (tick bits clock_now invoke impl st).2)).
    { apply (neutral_kept (timers st)); [done|].
      intros j. by apply tick_kept. }
    split; [done|]. by rewrite tick_and_delay_eq.
Qed.

Lemma completed_iteration st i c :
  handler (timers st !!! i) = Some c ->
  due bits clock_now st i = true ->
  status (invoke c (timers st, (now bits clock_now (world st)).2)).1 =
    TimerStatus.completed ->
  timers (tick_slot bits clock_now invoke impl st i) !!! i = cleared.
Proof.
  intros Hh Hd Hs. rewrite (tick_slot_fire _ _ _ _ _ _ _ Hh Hd).
  cbn [timers]. by apply apply_result_completed.
Qed.

(** X12. When an iteration of the dispatch loop runs the handler of a due
    slot and the handler reports [completed], the iteration leaves that
    slot with no handler and zero fields, whatever the handler did to the
    pool, the other slots as the handler left them and the world as the
    handler left it; a [cancel] through a handle to the slot in that
    state changes nothing.  With handlers that do not call back into the
    timer set the slot is still so when [tick] returns, and a [cancel]
    through a handle to it after [tick] changes nothing. *)
Theorem completed_frees_the_slot :
  (forall st i c,
     handler (timers st !!! i) = Some c ->
     due bits clock_now st i = true ->
     let r := invoke c (timers st, (now bits clock_now (world st)).2) in
     let st' := tick_slot bits clock_now invoke impl st i in
     status r.1 = TimerStatus.completed ->
     timers st' !!! i = cleared /\
     (forall j, i <> j -> timers st' !!! j = r.2.1 !!! j) /\
     world st' = r.2.2 /\
     cancel (Some i) st' = (Some i, st')) /\
  (forall st0 i c,
     pool_preserving invoke ->
     let st := reach bits clock_now invoke impl st0 i in
     handler (timers st !!! i) = Some c ->
     due bits clock_now st i = true ->
     status (invoke c (timers st, (now bits clock_now (world st)).2)).1 =
       TimerStatus.completed ->
     timers (tick bits clock_now invoke impl st0).2 !!! i = cleared /\
     cancel (Some i) (tick bits clock_now invoke impl st0).2 =
       (Some i, (tick bits clock_now invoke impl st0).2)).
Proof.
  split.
  - intros st i c Hh Hd r st' Hs.
    pose proof (completed_iteration st i c Hh Hd Hs) as Hi. fold st' in Hi.
    split; [done|]. subst st'.
    rewrite (tick_slot_fire _ _ _ _ _ _ _ Hh Hd) in *.
    cbn [timers world] in *. fold r. split; [|split; [done|]].
    + intros j Hne. by apply apply_result_other.
    + apply cancel_stale. exact (f_equal handler Hi).
  - intros st0 i c Hpp st Hh Hd Hs.
    pose proof (completed_iteration st i c Hh Hd Hs) as Hi.
    assert (Hend : timers (tick bits clock_now invoke impl st0).2 !!! i =
                   cleared).
    { rewrite timers_tick.
      destruct (dispatch_reach bits clock_now invoke impl st0 i)
        as (after & _ & ->). fold st.
      pose proof (foldl_tick_slot_kept
                    (tick_slot bits clock_now invoke impl st i) after i Hpp)
        as Hk.
      rewrite Hi in Hk. destruct Hk as [->|[Ha _]]; [done|].
      by rewrite is_armed_cleared in Ha. }
    split; [done|]. apply cancel_stale. exact (f_equal handler Hend).
Qed.

End Keeping.

(** ** Periodic, absolute and rescheduled timers *)

Section Deadlines.
Variable bits : positive.
Context {max_timers : nat} {Callable W : Type}.
Variable clock_now : W -> Z * W.
Variable invoke :
  Callable -> @Pool max_timers Callable * W ->
  HandlerResult * (@Pool max_timers Callable * W).
Variable impl : Impl.
Implicit Types st : @State max_timers Callable W.
Implicit Types ts : @Pool max_timers Callable.
Implicit Types i j : fin max_timers.

Lemma every_slot st interval (h : Handler) i st1 :
  every bits clock_now interval h st = (Some i, st1) ->
  timers st1 !!! i =
  {| handler := h; start := reading bits clock_now st;
     expires := interval; repeat := interval |}.
Proof.
  rewrite every_eq. unfold with_pool, reading.
  destruct (add_timer _ _ _ _ _) as [hd ts'] eqn:Ha. cbn [fst snd].
  intros [= -> <-]. cbn [timers].
  apply add_timer_slot in Ha as [_ ->]. apply vlookup_insert.
Qed.

Lemma apply_result_repeat_positive i t res ts :
  status res = TimerStatus.repeat ->
  0 < repeat (ts !!! i) ->
  apply_result impl i t res ts !!! i =
  rearm t (repeat (ts !!! i)) (ts !!! i).
Proof.
  intros Hs Hpos. destruct impl.
  - rewrite apply_result_repeat_cpp17 by done.
    apply Z.ltb_lt in Hpos. by rewrite Hpos.
  - by apply apply_result_repeat_legacy.
Qed.

(** X13. A timer scheduled with [every(interval, h)], [interval]
    positive, is not called before [interval] units have passed; when it
    is called after that and its handler reports [repeat] and leaves the
    slot alone, the slot is armed again with the same handler, the start
    at the reading taken before the call and the duration [interval], in
    both headers: the periods are counted from reading to reading. *)
Theorem every_rearms_from_the_firing_reading st interval c i st1 st2 e :
  every bits clock_now interval (Some c) st = (Some i, st1) ->
  0 < interval ->
  timers st2 !!! i = timers st1 !!! i ->
  0 <= e < modulus bits ->
  reading bits clock_now st2 = wrap bits (reading bits clock_now st + e) ->
  (e < interval ->
   fired (tick_slot bits clock_now invoke impl st2 i) = fired st2 /\
   timers (tick_slot bits clock_now invoke impl st2 i) = timers st2) /\
  (interval <= e ->
   let r := invoke c (timers st2, (now bits clock_now (world st2)).2) in
   fired (tick_slot bits clock_now invoke impl st2 i) =
     fired st2 ++ [(i, c)] /\
   (status r.1 = TimerStatus.repeat ->
    r.2.1 !!! i = timers st2 !!! i ->
    timers (tick_slot bits clock_now invoke impl st2 i) !!! i =
    {| handler := Some c; start := reading bits clock_now st2;
       expires := interval; repeat := interval |})).
Proof.
  intros Hs%every_slot Hpos Hslot He Hread. rewrite Hs in Hslot.
  destruct (tick_slot_at_elapsed bits clock_now invoke impl
              _ _ _ _ _ _ _ Hslot He Hread) as [Hlt Hge].
  split; [done|]. intros Hd r. split; [by apply Hge|].
  intros Hrep Hself.
  assert (Hh : handler (timers st2 !!! i) = Some c) by (by rewrite Hslot).
  assert (Hdue : due bits clock_now st2 i = true).
  { apply due_spec. unfold elapsed. rewrite Hread, Hslot. simpl.
    rewrite sub_elapsed by done. lia. }
  rewrite (tick_slot_fire _ _ _ _ _ _ _ Hh Hdue). cbn [timers]. fold r.
  rewrite apply_result_repeat_positive; rewrite ?Hself, ?Hslot; done.
Qed.

Lemma sub_wrap_l a b : sub bits (wrap bits a) b = sub bits a b.
Proof. unfold sub, wrap. apply Zminus_mod_idemp_l. Qed.

(** X14. A timer scheduled with [at(when, h)] is due at the reading
    [when], whatever the reading was when it was scheduled: the iteration
    that reaches its slot at that reading runs the handler and applies
    its outcome.  Counted from the scheduling reading, the handler is run
    exactly from the unsigned difference between [when] and that reading
    on, and before that the iteration only reads the clock. *)
Theorem at_is_due_when_the_clock_reads_the_time st when c i st1 :
  at_ bits clock_now when (Some c) st = (Some i, st1) ->
  (forall st2,
     timers st2 !!! i = timers st1 !!! i ->
     reading bits clock_now st2 = wrap bits when ->
      let r := invoke c (timers st2, (now bits clock_now (world st2)).2) in
      tick_slot bits clock_now invoke impl st2 i =
      {| timers := apply_result impl i (reading bits clock_now st2) r.1 r.2.1;
         world := r.2.2;
         fired := fired st2 ++ [(i, c)] |}) /\
  (forall st2 e,
     timers st2 !!! i = timers st1 !!! i ->
     0 <= e < modulus bits ->
     reading bits clock_now st2 = wrap bits (reading bits clock_now st + e) ->
     (e < sub bits when (reading bits clock_now st) ->
      tick_slot bits clock_now invoke impl st2 i =
      {| timers := timers st2; world := (now bits clock_now (world st2)).2;
         fired := fired st2 |}) /\
     (sub bits when (reading bits clock_now st) <= e ->
      let r := invoke c (timers st2, (now bits clock_now (world st2)).2) in
      tick_slot bits clock_now invoke impl st2 i =
      {| timers := apply_result impl i (reading bits clock_now st2) r.1 r.2.1;
         world := r.2.2;
         fired := fired st2 ++ [(i, c)] |})).
Proof.
  intros Hs%at_slot. split.
  - intros st2 Hslot Hread. rewrite Hs in Hslot.
    assert (Hel : elapsed bits clock_now st2 i =
                  sub bits when (reading bits clock_now st)).
    { unfold elapsed. rewrite Hread, Hslot. simpl. apply sub_wrap_l. }
    destruct (tick_slot_by_elapsed bits clock_now invoke impl st2 i c _
                (f_equal handler Hslot) Hel) as [Hrun _].
    apply Hrun. rewrite Hslot. simpl. lia.
  - intros st2 e Hslot He Hread. rewrite Hs in Hslot.
    assert (Hel : elapsed bits clock_now st2 i = e).
    { unfold elapsed. rewrite Hread, Hslot. simpl. by apply sub_elapsed. }
    destruct (tick_slot_by_elapsed bits clock_now invoke impl st2 i c _
                (f_equal handler Hslot) Hel) as [Hrun Hskip].
    rewrite Hslot in Hrun, Hskip. simpl in Hrun, Hskip.
    split; [exact Hskip | exact Hrun].
Qed.

Lemma reschedule_in_slot st i c (d : Timepoint) :
  handler (timers st !!! i) = Some c ->
  timers (reschedule_in bits clock_now (Some i) d st).2 !!! i =
  {| handler := Some c; start := reading bits clock_now st; expires := d;
     repeat := repeat (timers st !!! i) |}.
Proof.
  intros Hc. rewrite reschedule_in_eq. unfold with_pool. cbn [snd timers].
  rewrite (reschedule_timer_live _ _ _ _ _ Hc). apply vlookup_insert.
Qed.

Lemma reschedule_at_slot st i c (w : Timepoint) :
  handler (timers st !!! i) = Some c ->
  timers (reschedule_at bits clock_now (Some i) w st).2 !!! i =
  {| handler := Some c; start := reading bits clock_now st;
     expires := sub bits w (reading bits clock_now st);
     repeat := repeat (timers st !!! i) |}.
Proof.
  intros Hc. rewrite reschedule_at_eq. unfold with_pool. cbn [snd timers].
  rewrite (reschedule_timer_live _ _ _ _ _ Hc). apply vlookup_insert.
Qed.

(** X15. After [reschedule_in(handle, d)] on a live timer the earlier
    deadline no longer counts: at a reading taken [e] units after the
    call, the iteration that reaches the slot runs the handler and
    applies its outcome when [d <= e], and only reads the clock when
    [e < d].  After [reschedule_at(handle, when)] the handler is run at
    the reading [when]. *)
Theorem rescheduled_timer_counts_from_the_call st i c (d : Timepoint) :
  handler (timers st !!! i) = Some c ->
  (forall st2 e,
     timers st2 !!! i =
       timers (reschedule_in bits clock_now (Some i) d st).2 !!! i ->
     0 <= e < modulus bits ->
     reading bits clock_now st2 = wrap bits (reading bits clock_now st + e) ->
     (e < d ->
      tick_slot bits clock_now invoke impl st2 i =
      {| timers := timers st2; world := (now bits clock_now (world st2)).2;
         fired := fired st2 |}) /\
     (d <= e ->
      let r := invoke c (timers st2, (now bits clock_now (world st2)).2) in
      tick_slot bits clock_now invoke impl st2 i =
      {| timers := apply_result impl i (reading bits clock_now st2) r.1 r.2.1;
         world := r.2.2;
         fired := fired st2 ++ [(i, c)] |})) /\
  (forall st2,
     timers st2 !!! i =
       timers (reschedule_at bits clock_now (Some i) d st).2 !!! i ->
     reading bits clock_now st2 = wrap bits d ->
      let r := invoke c (timers st2, (now bits clock_now (world st2)).2) in
      tick_slot bits clock_now invoke impl st2 i =
      {| timers := apply_result impl i (reading bits clock_now st2) r.1 r.2.1;
         world := r.2.2;
         fired := fired st2 ++ [(i, c)] |}).
Proof.
  intros Hc. split.
  - intros st2 e Hslot He Hread.
    rewrite (reschedule_in_slot _ _ _ _ Hc) in Hslot.
    assert (Hel : elapsed bits clock_now st2 i = e).
    { unfold elapsed. rewrite Hread, Hslot. simpl. by apply sub_elapsed. }
    destruct (tick_slot_by_elapsed bits clock_now invoke impl st2 i c _
                (f_equal handler Hslot) Hel) as [Hrun Hskip].
    rewrite Hslot in Hrun, Hskip. simpl in Hrun, Hskip.
    split; [exact Hskip | exact Hrun].
  - intros st2 Hslot Hread.
    rewrite (reschedule_at_slot _ _ _ _ Hc) in Hslot.
    assert (Hel : elapsed bits clock_now st2 i =
                  sub bits d (reading bits clock_now st)).
    { unfold elapsed. rewrite Hread, Hslot. simpl. apply sub_wrap_l. }
    destruct (tick_slot_by_elapsed bits clock_now invoke impl st2 i c _
                (f_equal handler Hslot) Hel) as [Hrun _].
    apply Hrun. rewrite Hslot. simpl. lia.
Qed.

End Deadlines.

(** ** The two headers *)

Section Headers.
Variable bits : positive.
Context {max_timers : nat} {Callable W : Type}.
Variable clock_now : W -> Z * W.
Variable invoke :
  Callable -> @Pool max_timers Callable * W ->
  HandlerResult * (@Pool max_timers Callable * W).
Variable clock_delay : Timepoint -> W -> W.
Implicit Types st : @State max_timers Callable W.
Implicit Types ts : @Pool max_timers Callable.
Implicit Types i j : fin max_timers.

Lemma apply_result_headers i t res ts :
  (status res = TimerStatus.repeat -> 0 < repeat (ts !!! i)) ->
  apply_result Cpp17 i t res ts = apply_result Legacy i t res ts.
Proof.
  intros Hpos. unfold apply_result.
  destruct (status res); try done.
  specialize (Hpos eq_refl). apply Z.ltb_lt in Hpos. by rewrite Hpos.
Qed.

Lemma tick_slot_headers st i :
  pool_preserving invoke ->
  repeat_has_interval invoke (timers st) ->
  tick_slot bits clock_now invoke Cpp17 st i =
  tick_slot bits clock_now invoke Legacy st i.
Proof.
  intros Hpp Hinv. unfold tick_slot.
  destruct (handler (timers st !!! i)) as [c|] eqn:Hh; [|done].
  destruct (now bits clock_now (world st)) as [t w1].
  destruct (expires (timers st !!! i) <=? _); [|done].
  pose proof (Hpp c (timers st) w1) as Hsame.
  destruct (invoke c (timers st, w1)) as [res [ts2 w2]] eqn:Hr.
  simpl in Hsame. subst ts2.
  rewrite apply_result_headers; [done|]. intros Hs.
  destruct (Hinv i c Hh) as [Hpos|Hnever]; [done|].
  exfalso. apply (Hnever (timers st, w1)). by rewrite Hr.
Qed.

Lemma repeat_has_interval_kept ts ts' :
  repeat_has_interval invoke ts ->
  (forall j, kept (ts !!! j) (ts' !!! j)) ->
  repeat_has_interval invoke ts'.
Proof.
  intros Hinv Hk j c Hc.
  destruct (Hk j) as [E|[Ha [E|[Hh Hr]]]].
  - rewrite E in *. by apply Hinv.
  - rewrite E in Hc. discriminate.
  - rewrite Hr. apply Hinv. by rewrite <- Hh.
Qed.

Lemma foldl_tick_slot_headers st (l : list (fin max_timers)) :
  pool_preserving invoke ->
  repeat_has_interval invoke (timers st) ->
  foldl (tick_slot bits clock_now invoke Cpp17) st l =
  foldl (tick_slot bits clock_now invoke Legacy) st l.
Proof.
  intros Hpp. revert st. induction l as [|i l IH]; intros st Hinv; [done|].
  simpl. rewrite tick_slot_headers by done. apply IH.
  apply (repeat_has_interval_kept (timers st)); [done|].
  intros j. by apply tick_slot_kept.
Qed.

(** X16. The two headers run the same [tick] and [tick_and_delay] on a
    set in which every timer has a positive repeat interval or a handler
    that never reports [repeat], when the handlers do not call back into
    the timer set: they differ only on a [repeat] outcome of a timer
    without an interval. *)
Theorem headers_agree_unless_repeat_without_interval st :
  pool_preserving invoke ->
  repeat_has_interval invoke (timers st) ->
  tick bits clock_now invoke Cpp17 st =
    tick bits clock_now invoke Legacy st /\
  tick_and_delay bits clock_now invoke Cpp17 clock_delay st =
    tick_and_delay bits clock_now invoke Legacy clock_delay st.
Proof.
  intros Hpp Hinv.
  assert (Ht : tick bits clock_now invoke Cpp17 st =
               tick bits clock_now invoke Legacy st).
  { unfold tick, dispatch. by rewrite foldl_tick_slot_headers. }
  split; [done|]. by rewrite !tick_and_delay_eq, Ht.
Qed.

End Headers.

(** ** The delay of the microsecond clock *)

(** X17. [Clock::micros::delay(until)] asks the platform for
    [until mod 1000] microseconds and then for [until / 1000]
    milliseconds: the microsecond part is below 1000 and the two parts
    add up to [until] microseconds, for every [until] an [unsigned long]
    holds and every [unsigned int] that holds 1000. *)
Theorem micros_delay_splits_the_time bits int_bits until :
  0 <= until < modulus bits ->
  1000 <= 2 ^ Z.pos int_bits ->
  Clock.micros_delay bits int_bits until =
    [Clock.delayMicroseconds (until mod 1000); Clock.delay (until / 1000)] /\
  0 <= until mod 1000 < 1000 /\
  foldr (λ p total, Clock.pause_micros p + total) 0
    (Clock.micros_delay bits int_bits until) = until.
Proof.
  intros Hu Hint.
  pose proof (Z.mod_pos_bound until 1000 ltac:(lia)) as Hus.
  pose proof (Z.div_mod until 1000 ltac:(lia)) as Hdm.
  assert (Hcalls : Clock.micros_delay bits int_bits until =
    [Clock.delayMicroseconds (until mod 1000); Clock.delay (until / 1000)]).
  { unfold Clock.micros_delay.
    rewrite (Z.mod_small (until mod 1000)) by lia.
    rewrite wrap_small by lia.
    do 3 f_equal.
    replace (until - until mod 1000) with (until / 1000 * 1000) by lia.
    apply Z.div_mul. lia. }
  split; [done|]. split; [done|].
  rewrite Hcalls. simpl. lia.
Qed.

(** ** The order of the calls, and timers at the bounds *)

Section Order.
Variable bits : positive.
Context {max_timers : nat} {Callable W : Type}.
Variable clock_now : W -> Z * W.
Variable invoke :
  Callable -> @Pool max_timers Callable * W ->
  HandlerResult * (@Pool max_timers Callable * W).
Variable impl : Impl.
Implicit Types st : @State max_timers Callable W.
Implicit Types i j : fin max_timers.

Lemma fin_enum_to_nat n : fin_to_nat <$> fin_enum n = seq 0 n.
Proof.
  induction n as [|n IH]; [done|].
  simpl. f_equal. rewrite <- list_fmap_compose.
  rewrite <- fmap_S_seq, <- IH, <- list_fmap_compose. done.
Qed.

Lemma foldl_tick_slot_fired st (l : list (fin max_timers)) :
  exists new,
    fired (foldl (tick_slot bits clock_now invoke impl) st l) =
      fired st ++ new /\
    sublist (new.*1) l.
Proof.
  revert st. induction l as [|i l IH]; intros st.
  - exists []. split; [by rewrite app_nil_r | constructor].
  - simpl. destruct (IH (tick_slot bits clock_now invoke impl st i))
      as (new & -> & Hsub).
    rewrite tick_slot_fired.
    destruct (handler (timers st !!! i)) as [c|];
      [destruct (due bits clock_now st i)|].
    + exists ((i, c) :: new). split; [by rewrite <- app_assoc|].
      simpl. by apply sublist_skip.
    + exists new. split; [by rewrite app_nil_r | by apply sublist_cons].
    + exists new. split; [by rewrite app_nil_r | by apply sublist_cons].
Qed.

(** X18. One [tick] calls handlers in the order of the slots and at most
    one handler per slot: the slots of the calls it adds to the log form
    a subsequence of 0, 1, ..., [max_timers - 1]. *)
Theorem tick_calls_handlers_in_slot_order st :
  exists new,
    fired (tick bits clock_now invoke impl st).2 = fired st ++ new /\
    sublist (fin_to_nat <$> new.*1) (seq 0 max_timers).
Proof.
  destruct (foldl_tick_slot_fired st (fin_enum max_timers))
    as (new & Hnew & Hsub).
  exists new. split.
  - rewrite tick_eq. exact Hnew.
  - rewrite <- fin_enum_to_nat. by apply fmap_sublist.
Qed.

Lemma sub_elapsed_mod s e :
  sub bits (wrap bits (s + e)) s = e mod modulus bits.
Proof.
  unfold sub, wrap. rewrite Zminus_mod_idemp_l. f_equal. lia.
Qed.

(** X19. A timer is judged by the time elapsed since its start modulo the
    range of [Timepoint]: at a reading taken [e] units after the start,
    for any [e], the iteration that reaches the slot runs the handler and
    applies its outcome exactly when [e mod 2^bits] has reached the
    duration, and otherwise only reads the clock.  A timer that is looked
    at a whole range too late is seen as not yet due. *)
Theorem due_is_judged_modulo_the_range st i c s d r0 e :
  timers st !!! i =
    {| handler := Some c; start := s; expires := d; repeat := r0 |} ->
  reading bits clock_now st = wrap bits (s + e) ->
  (e mod modulus bits < d ->
      tick_slot bits clock_now invoke impl st i =
      {| timers := timers st; world := (now bits clock_now (world st)).2;
         fired := fired st |}) /\
  (d <= e mod modulus bits ->
      let r := invoke c (timers st, (now bits clock_now (world st)).2) in
      tick_slot bits clock_now invoke impl st i =
      {| timers := apply_result impl i (reading bits clock_now st) r.1 r.2.1;
         world := r.2.2;
         fired := fired st ++ [(i, c)] |}).
Proof.
  intros Hslot Hread.
  assert (Hel : elapsed bits clock_now st i = e mod modulus bits).
  { unfold elapsed. rewrite Hread, Hslot. simpl. apply sub_elapsed_mod. }
  destruct (tick_slot_by_elapsed bits clock_now invoke impl st i c _
              (f_equal handler Hslot) Hel) as [Hrun Hskip].
  rewrite Hslot in Hrun, Hskip. simpl in Hrun, Hskip.
  split; [exact Hskip | exact Hrun].
Qed.

(** X20. A timer scheduled with [in(0, h)] is due at every reading: the
    first iteration that reaches its slot runs the handler and applies
    its outcome, whatever the clock shows. *)
Theorem in_zero_is_always_due st c i st1 st2 :
  in_ bits clock_now 0 (Some c) st = (Some i, st1) ->
  timers st2 !!! i = timers st1 !!! i ->
  let r := invoke c (timers st2, (now bits clock_now (world st2)).2) in
  tick_slot bits clock_now invoke impl st2 i =
  {| timers := apply_result impl i (reading bits clock_now st2) r.1 r.2.1;
     world := r.2.2;
     fired := fired st2 ++ [(i, c)] |}.
Proof.
  intros Hs%in_slot Hslot. rewrite Hs in Hslot.
  destruct (tick_slot_by_elapsed bits clock_now invoke impl st2 i c _
              (f_equal handler Hslot) eq_refl) as [Hrun _].
  apply Hrun. rewrite Hslot. simpl. unfold elapsed. apply sub_range.
Qed.

End Order.

(** * The further properties at concrete inputs *)

Lemma report_is_pool_preserving n :
  pool_preserving (Scenario.report (n := n)).
Proof. intros c ts w. reflexivity. Qed.

(** X2: scheduling into a set with two timers leaves the second one as
    it was. *)
Lemma in_leaves_the_periodic_timer :
  timers (in_ 32 Scenario.script_clock 5 (Some Scenario.completes)
            Scenario.two_timers).2 !!! 1%fin =
  timers Scenario.two_timers !!! 1%fin.
Proof.
  apply (scheduling_never_touches_an_armed_timer 32 Scenario.script_clock
           Scenario.two_timers 5 (Some Scenario.completes) 1%fin eq_refl).
Defined.

(** X3: the third scheduling call on a default set gets the slot 2. *)
Lemma third_call_on_a_default_set_gets_slot_2 :
  exists i,
    fin_to_nat i = 2%nat /\
    (schedule 32 Scenario.script_clock (ReqIn 5 Scenario.completes)
       (schedule_all 32 Scenario.script_clock
          [ReqEvery 3 Scenario.repeats; ReqIn 4 Scenario.completes]
          (create_default [1; 2; 3]))).1 = Some i.
Proof.
  refine (proj1 (slots_are_handed_out_in_index_order 32
                   Scenario.script_clock (create_default [1; 2; 3])
                   [ReqEvery 3 Scenario.repeats; ReqIn 4 Scenario.completes]
                   (ReqIn 5 Scenario.completes) _) _).
  - intros i. exact (f_equal handler (vlookup_replicate _ cleared i)).
  - simpl. unfold TIMERSET_DEFAULT_TIMERS. lia.
Defined.

(** X4: [in] with an empty handler on an empty one-slot set, when the
    clock reads 1000, and [every] after it. *)
Lemma slot_of_an_empty_handler_is_handed_out_again :
  (in_ 32 Scenario.script_clock 5 None Scenario.idle_at_1000).1 =
    Some 0%fin /\
  timers (in_ 32 Scenario.script_clock 5 None Scenario.idle_at_1000).2
    !!! 0%fin =
    {| handler := None; start := 1000; expires := 5; repeat := 0 |} /\
  (every 32 Scenario.script_clock 9 (Some Scenario.repeats)
     (in_ 32 Scenario.script_clock 5 None Scenario.idle_at_1000).2).1 =
    Some 0%fin.
Proof.
  destruct (empty_handler_leaves_the_slot_free 32 Scenario.script_clock
              Scenario.idle_at_1000 5 0%fin eq_refl)
    as (i & Hnext & [Hhandle Hslot] & _ & _ & _ & Hafter).
  injection Hnext as <-.
  destruct (Hafter _ (or_introl eq_refl)) as (_ & Hevery & _).
  split; [exact Hhandle|]. split; [exact Hslot | apply Hevery].
Defined.

(** X5: cancelling the first of two timers and scheduling again. *)
Lemma first_slot_is_reused_after_cancel :
  (schedule 32 Scenario.script_clock (ReqIn 9 Scenario.repeats)
     (cancel (Some 0%fin) Scenario.two_timers).2).1 = Some 0%fin.
Proof.
  refine (proj1 (cancelled_slot_is_reused 32 Scenario.script_clock
                   Scenario.two_timers 0%fin Scenario.completes
                   (ReqIn 9 Scenario.repeats) eq_refl _)).
  intros j Hj. simpl in Hj. lia.
Defined.

Lemma idle_pair_is_neutral : neutral (timers Scenario.idle_pair).
Proof.
  intros i _. inv_fin i; [reflexivity|].
  intros i. inv_fin i; [reflexivity|]. intros i. inv_fin i.
Qed.

(** X6: [every] and then [cancel] on an empty two-slot set. *)
Lemma cancel_after_every_restores_the_pool :
  timers (cancel (Some 0%fin)
            (every 32 Scenario.script_clock 5 (Some Scenario.repeats)
               Scenario.idle_pair).2).2 =
  timers Scenario.idle_pair.
Proof.
  apply (cancel_undoes_scheduling 32 Scenario.script_clock
           Scenario.idle_pair (ReqEvery 5 Scenario.repeats) 0%fin
           (every 32 Scenario.script_clock 5 (Some Scenario.repeats)
              Scenario.idle_pair).2 idle_pair_is_neutral eq_refl).
Defined.

(** X7: [tick] on an empty two-slot set. *)
Lemma tick_of_the_idle_pair :
  tick 32 Scenario.script_clock Scenario.report Legacy Scenario.idle_pair =
  (0, Scenario.double cleared cleared [7; 12; 12]).
Proof.
  refine (proj1 (tick_of_a_set_without_timers 32 Scenario.script_clock
                   Scenario.report Legacy Scenario.no_delay
                   Scenario.idle_pair _)).
  intros i. inv_fin i; [reflexivity|].
  intros i. inv_fin i; [reflexivity|]. intros i. inv_fin i.
Defined.

(** X9: with two timers that have 7 and 22 units left at the reading 3,
    [tick] returns 7, and at the reading 10 the iteration at the first
    slot runs its handler, which reports [completed]. *)
Lemma a_timer_is_due_after_the_returned_time :
  (tick 32 Scenario.script_clock Scenario.report Cpp17
     Scenario.two_timers).1 = 7 /\
  tick_slot 32 Scenario.script_clock Scenario.report Cpp17
    (Scenario.double
       {| handler := Some Scenario.completes; start := 0; expires := 10;
          repeat := 0 |}
       {| handler := Some Scenario.repeats; start := 0; expires := 25;
          repeat := 25 |} [10]) 0%fin =
    {| timers := [# cleared;
                    {| handler := Some Scenario.repeats; start := 0;
                       expires := 25; repeat := 25 |}];
       world := []; fired := [(0%fin, Scenario.completes)] |}.
Proof.
  split; [reflexivity|].
  destruct (waiting_the_returned_time_makes_a_timer_due 32
              Scenario.script_clock Scenario.report Cpp17
              Scenario.two_timers eq_refl) as (i & c & Hc & Hr & Hrun).
  revert Hc Hr Hrun. inv_fin i.
  - intros Hc _ Hrun. injection Hc as <-.
    refine (Hrun (Scenario.double
                    {| handler := Some Scenario.completes; start := 0;
                       expires := 10; repeat := 0 |}
                    {| handler := Some Scenario.repeats; start := 0;
                       expires := 25; repeat := 25 |} [10])
              eq_refl _ eq_refl).
    change (modulus 32) with 4294967296. simpl. lia.
  - intros i. inv_fin i; [intros _ Hr; discriminate Hr|].
    intros i. inv_fin i.
Defined.

(** X10: the periodic timer keeps its handler and interval over a
    tick. *)
Lemma tick_keeps_the_periodic_timer :
  handler (timers (tick 32 Scenario.script_clock Scenario.report Cpp17
                     Scenario.two_timers).2 !!! 1%fin) =
    Some Scenario.repeats /\
  repeat (timers (tick 32 Scenario.script_clock Scenario.report Cpp17
                    Scenario.two_timers).2 !!! 1%fin) = 25.
Proof.
  apply (proj1 (proj2 (tick_keeps_handlers_and_intervals 32
                         Scenario.script_clock Scenario.report Cpp17
                         Scenario.two_timers 1%fin
                         (report_is_pool_preserving 2)))).
  reflexivity.
Defined.

(** X11: the second slot of an empty two-slot set is still zeroed after a
    scheduling call and after a tick. *)
Lemma second_slot_stays_zeroed :
  timers (schedule 32 Scenario.script_clock (ReqIn 5 Scenario.completes)
            Scenario.idle_pair).2 !!! 1%fin = cleared /\
  timers (tick 32 Scenario.script_clock Scenario.report Cpp17
            Scenario.idle_pair).2 !!! 1%fin = cleared.
Proof.
  destruct (free_slots_stay_zeroed 32 Scenario.script_clock Scenario.report
              Cpp17 Scenario.no_delay Scenario.idle_pair
              idle_pair_is_neutral) as (Hs & _ & _ & Ht).
  split.
  - apply (Hs (ReqIn 5 Scenario.completes) 1%fin). reflexivity.
  - apply (proj1 (Ht (report_is_pool_preserving 2)) 1%fin). reflexivity.
Defined.

(** X12: a one-shot timer of 10 units at the reading 10, over one
    iteration and over a whole tick. *)
Lemma one_shot_timer_frees_its_slot :
  timers
    (tick_slot 32 Scenario.script_clock Scenario.report Legacy
       (Scenario.single
          {| handler := Some Scenario.completes; start := 0; expires := 10;
             repeat := 0 |} [10; 10]) 0%fin) !!! 0%fin = cleared /\
  timers
    (tick 32 Scenario.script_clock Scenario.report Legacy
       (Scenario.single
          {| handler := Some Scenario.completes; start := 0; expires := 10;
             repeat := 0 |} [10; 10])).2 !!! 0%fin = cleared.
Proof.
  destruct (completed_frees_the_slot 32 (max_timers := 1)
              Scenario.script_clock Scenario.report Legacy)
    as [Hstep Htick].
  split.
  - apply (Hstep
             (Scenario.single
                {| handler := Some Scenario.completes; start := 0;
                   expires := 10; repeat := 0 |} [10; 10])
             0%fin Scenario.completes eq_refl eq_refl eq_refl).
  - apply (Htick
             (Scenario.single
                {| handler := Some Scenario.completes; start := 0;
                   expires := 10; repeat := 0 |} [10; 10])
             0%fin Scenario.completes (report_is_pool_preserving 1)
             eq_refl eq_refl eq_refl).
Defined.

(** X13: [every(5, h)] scheduled at the reading 7 and reached at the
    reading 12. *)
Lemma every_5_is_rearmed_at_12 :
  timers
    (tick_slot 32 Scenario.script_clock Scenario.report Legacy
       (Scenario.double
          {| handler := Some Scenario.repeats; start := 7; expires := 5;
             repeat := 5 |} cleared [12; 12]) 0%fin) !!! 0%fin =
  {| handler := Some Scenario.repeats; start := 12; expires := 5;
     repeat := 5 |}.
Proof.
  destruct (every_rearms_from_the_firing_reading 32 Scenario.script_clock
              Scenario.report Legacy Scenario.idle_pair 5 Scenario.repeats
              0%fin
              (every 32 Scenario.script_clock 5 (Some Scenario.repeats)
                 Scenario.idle_pair).2
              (Scenario.double
                 {| handler := Some Scenario.repeats; start := 7;
                    expires := 5; repeat := 5 |} cleared [12; 12])
              5 eq_refl ltac:(lia) eq_refl
              ltac:(change (modulus 32) with 4294967296; lia) eq_refl)
    as [_ Hge].
  destruct (Hge ltac:(lia)) as [_ Hrearm].
  apply Hrearm; reflexivity.
Defined.

(** X14: [at(12, h)] scheduled at the reading 7 and reached at the
    reading 12: the handler is run, reports [completed], and the slot is
    cleared. *)
Lemma at_12_fires_at_12 :
  tick_slot 32 Scenario.script_clock Scenario.report Cpp17
    (Scenario.double
       {| handler := Some Scenario.completes; start := 7; expires := 5;
          repeat := 0 |} cleared [12]) 0%fin =
  {| timers := [# cleared; cleared]; world := [];
     fired := [(0%fin, Scenario.completes)] |}.
Proof.
  apply (proj1 (at_is_due_when_the_clock_reads_the_time 32
                  Scenario.script_clock Scenario.report Cpp17
                  Scenario.idle_pair 12 Scenario.completes 0%fin
                  (at_ 32 Scenario.script_clock 12 (Some Scenario.completes)
                     Scenario.idle_pair).2 eq_refl)
           (Scenario.double
              {| handler := Some Scenario.completes; start := 7;
                 expires := 5; repeat := 0 |} cleared [12])
           eq_refl eq_refl).
Defined.

(** X15: the one-shot timer of 10 units rescheduled by 4 units at the
    reading 3 is run at the reading 7. *)
Lemma rescheduled_by_4_fires_at_7 :
  tick_slot 32 Scenario.script_clock Scenario.report Cpp17
    (Scenario.double
       {| handler := Some Scenario.completes; start := 3; expires := 4;
          repeat := 0 |}
       {| handler := Some Scenario.repeats; start := 0; expires := 25;
          repeat := 25 |} [7]) 0%fin =
  {| timers := [# cleared;
                  {| handler := Some Scenario.repeats; start := 0;
                     expires := 25; repeat := 25 |}];
     world := []; fired := [(0%fin, Scenario.completes)] |}.
Proof.
  destruct (rescheduled_timer_counts_from_the_call 32 Scenario.script_clock
              Scenario.report Cpp17 Scenario.two_timers 0%fin
              Scenario.completes 4 eq_refl) as [Hin _].
  destruct (Hin (Scenario.double
                   {| handler := Some Scenario.completes; start := 3;
                      expires := 4; repeat := 0 |}
                   {| handler := Some Scenario.repeats; start := 0;
                      expires := 25; repeat := 25 |} [7])
                4 eq_refl
                ltac:(change (modulus 32) with 4294967296; lia) eq_refl)
    as [_ Hge].
  apply Hge. lia.
Defined.

Lemma two_timers_repeat_has_interval :
  repeat_has_interval Scenario.report (timers Scenario.two_timers).
Proof.
  intros i. inv_fin i.
  - intros c [= <-]. right. intros s. simpl. discriminate.
  - intros i c _. inv_fin i; [left; simpl; lia|]. intros i. inv_fin i.
Qed.

(** X16: both headers run the same tick on the two timers. *)
Lemma headers_agree_on_two_timers :
  tick 32 Scenario.script_clock Scenario.report Cpp17 Scenario.two_timers =
  tick 32 Scenario.script_clock Scenario.report Legacy Scenario.two_timers.
Proof.
  apply (headers_agree_unless_repeat_without_interval 32
           Scenario.script_clock Scenario.report Scenario.no_delay
           Scenario.two_timers (report_is_pool_preserving 2)
           two_timers_repeat_has_interval).
Defined.

(** X17: a delay of 1234567 microseconds with a 16-bit [unsigned int]. *)
Lemma micros_delay_of_1234567 :
  Clock.micros_delay 32 16 1234567 =
  [Clock.delayMicroseconds 567; Clock.delay 1234].
Proof.
  apply (micros_delay_splits_the_time 32 16 1234567).
  - change (modulus 32) with 4294967296. lia.
  - change (2 ^ Z.pos 16) with 65536. lia.
Defined.

(** X19: a timer of 10 units started at 0, looked at 2^32 + 3 units
    later, when the clock reads 3 again: the iteration only reads the
    clock; looked at 2^32 + 12 units later, it runs the handler. *)
Lemma timer_overdue_by_a_whole_range_is_skipped :
  tick_slot 32 Scenario.script_clock Scenario.report Cpp17
    Scenario.two_timers 0%fin =
    {| timers := timers Scenario.two_timers; world := [3; 3]; fired := [] |} /\
  tick_slot 32 Scenario.script_clock Scenario.report Cpp17
    (Scenario.single
       {| handler := Some Scenario.completes; start := 0; expires := 10;
          repeat := 0 |} [12]) 0%fin =
    {| timers := [# cleared]; world := [];
       fired := [(0%fin, Scenario.completes)] |}.
Proof.
  split.
  - apply (proj1 (due_is_judged_modulo_the_range 32 Scenario.script_clock
                    Scenario.report Cpp17 Scenario.two_timers 0%fin
                    Scenario.completes 0 10 0 4294967299 eq_refl eq_refl)).
    reflexivity.
  - apply (proj2 (due_is_judged_modulo_the_range 32 Scenario.script_clock
                    Scenario.report Cpp17
                    (Scenario.single
                       {| handler := Some Scenario.completes; start := 0;
                          expires := 10; repeat := 0 |} [12])
                    0%fin Scenario.completes 0 10 0 4294967308
                    eq_refl eq_refl)).
    vm_compute. discriminate.
Defined.

(** X20: [in(0, h)] scheduled and reached at the reading 1000: the
    handler is run and the slot cleared. *)
Lemma in_zero_fires_at_once :
  tick_slot 32 Scenario.script_clock Scenario.report Cpp17
    (in_ 32 Scenario.script_clock 0 (Some Scenario.completes)
       Scenario.idle_at_1000).2 0%fin =
  {| timers := [# cleared]; world := [1000];
     fired := [(0%fin, Scenario.completes)] |}.
Proof.
  apply (in_zero_is_always_due 32 Scenario.script_clock Scenario.report
           Cpp17 Scenario.idle_at_1000 Scenario.completes 0%fin
           (in_ 32 Scenario.script_clock 0 (Some Scenario.completes)
              Scenario.idle_at_1000).2
           (in_ 32 Scenario.script_clock 0 (Some Scenario.completes)
              Scenario.idle_at_1000).2 eq_refl eq_refl).
Defined.
